(** * UTXO reconstruction and coin selection of the Bitcoin testnet wallet demo

    A shallow embedding of
    - [analyzeUTXOs] (getUTXos.js, lines 56-140),
    - [calculateMaxSendable] (sendBTC.js, lines 110-113),
    - the UTXO selection of [sendTransaction] (sendBTC.js, lines 193-215),
    with the properties of the design document proved about them.

    Modelling conventions.
    - A JavaScript number holding a satoshi amount is an unbounded integer
      [Z]; the double-precision representation is exact on these amounts
      (the whole supply is below 2^53).  A numeric field may be absent, which
      JavaScript reads as [undefined]; arithmetic on it yields [NaN].
    - A thrown exception is the [Err] result of a small error monad.
    - The [Map] of the reconstruction is an association list in insertion
      order ([Map.prototype.set] keeps the position of an existing key), the
      [Set] of spent keys is a [gset string].
    - [availableBalanceBTC] (a floating-point division used for display only)
      is left out of the snapshot. *)

From Stdlib Require Import ZArith Lia Ascii String.
From stdpp Require Import base strings list gmap pretty sorting.

#[local] Open Scope string_scope.
#[local] Open Scope list_scope.
#[local] Open Scope Z_scope.

(** ** JavaScript values of numeric fields *)

Inductive jsval : Type :=
  | JUndefined
  | JNum (z : Z)
  | JNaN.

#[global] Instance jsval_eq_dec : EqDecision jsval.
Proof. solve_decision. Defined.

(** [a + b] on numbers; [undefined] converts to [NaN], which is absorbing. *)
Definition js_add (a b : jsval) : jsval :=
  match a, b with
  | JNum x, JNum y => JNum (x + y)
  | _, _ => JNaN
  end.

(** [a - b] *)
Definition js_sub (a b : jsval) : jsval :=
  match a, b with
  | JNum x, JNum y => JNum (x - y)
  | _, _ => JNaN
  end.

(** [a > b], [a >= b], [a < b]: every comparison with [NaN] is false. *)
Definition js_gt (a b : jsval) : bool :=
  match a, b with
  | JNum x, JNum y => bool_decide (y < x)
  | _, _ => false
  end.

Definition js_ge (a b : jsval) : bool :=
  match a, b with
  | JNum x, JNum y => bool_decide (y <= x)
  | _, _ => false
  end.

Definition js_lt (a b : jsval) : bool :=
  match a, b with
  | JNum x, JNum y => bool_decide (x < y)
  | _, _ => false
  end.

(** [`${v}`]: the string a template literal interpolates for a number. *)
Definition js_toString (v : jsval) : string :=
  match v with
  | JUndefined => "undefined"
  | JNum z => pretty z
  | JNaN => "NaN"
  end.

(** ** Exceptions *)

Inductive exn : Type :=
  | TypeError                (* reading a property of undefined, or iterating it *)
  | Error (message : string) (* [new Error(message)] *).

Inductive result (A : Type) : Type :=
  | Ok (a : A)
  | Err (e : exn).
Arguments Ok {A} a.
Arguments Err {A} e.

#[global] Instance result_ret : MRet result := λ A a, Ok a.
#[global] Instance result_bind : MBind result := λ A B f m,
  match m with
  | Ok a => f a
  | Err e => Err e
  end.

(** A [for ... of] loop whose body may throw. *)
Fixpoint forOf {S A : Type} (body : S → A → result S) (s : S) (l : list A)
  : result S :=
  match l with
  | [] => Ok s
  | x :: l' => s' ← body s x; forOf body s' l'
  end.

(** Reading an array-valued property that may be missing, in order to iterate
    over it or to take its [length]. *)
Definition iterable {A : Type} (o : option (list A)) : result (list A) :=
  match o with
  | Some l => Ok l
  | None => Err TypeError
  end.

(** ** Transaction records (the JSON objects of the history source) *)

Record Coin : Type := mkCoin {
  coin_address : string;
  coin_value : jsval
}.

Record Prevout : Type := mkPrevout {
  prevout_hash : string;
  prevout_index : nat
}.

Record Input : Type := mkInput {
  input_coin : option Coin;
  input_prevout : option Prevout
}.

Record Output : Type := mkOutput {
  output_address : string;
  output_value : jsval
}.

Record Transaction : Type := mkTransaction {
  tx_hash : option string;
  tx_blockNumber : option Z;
  tx_inputs : option (list Input);
  tx_outputs : option (list Output)
}.

(** ** The [Map] of UTXO entries *)

Record UtxoEntry : Type := mkUtxoEntry {
  utxo_value : jsval;
  utxo_spent : bool;
  utxo_confirmed : bool
}.

#[global] Instance UtxoEntry_eq_dec : EqDecision UtxoEntry.
Proof. solve_decision. Defined.

Definition UtxoMap : Type := list (string * UtxoEntry).

(** [utxos.set(key, entry)] *)
Fixpoint map_set (key : string) (entry : UtxoEntry) (utxos : UtxoMap) : UtxoMap :=
  match utxos with
  | [] => [(key, entry)]
  | (k, e) :: rest =>
      if decide (k = key) then (key, entry) :: rest
      else (k, e) :: map_set key entry rest
  end.

(** [utxos.get(key)] *)
Fixpoint map_get (key : string) (utxos : UtxoMap) : option UtxoEntry :=
  match utxos with
  | [] => None
  | (k, e) :: rest => if decide (k = key) then Some e else map_get key rest
  end.

(** ** analyzeUTXOs *)

(** [`${hash}:${index}`] *)
Definition utxoKey (hash : string) (index : nat) : string :=
  hash +:+ ":" +:+ pretty index.

(** [`${tx.hash}`]: a missing hash interpolates as ["undefined"]. *)
Definition hashString (tx : Transaction) : string :=
  match tx_hash tx with
  | Some h => h
  | None => "undefined"
  end.

(** [tx.blockNumber !== undefined && tx.blockNumber !== null] *)
Definition isConfirmed (tx : Transaction) : bool :=
  match tx_blockNumber tx with
  | Some _ => true
  | None => false
  end.

(** [input.coin && input.coin.address === address] *)
Definition spendsFrom (address : string) (input : Input) : option Coin :=
  match input_coin input with
  | Some c => if decide (coin_address c = address) then Some c else None
  | None => None
  end.

(** First pass, body of the inner loop (lines 68-71). *)
Definition markSpent (address : string) (spentUtxos : gset string)
    (input : Input) : result (gset string) :=
  match spendsFrom address input with
  | Some _ =>
      match input_prevout input with
      | Some p => Ok ({[ utxoKey (prevout_hash p) (prevout_index p) ]} ∪ spentUtxos)
      | None => Err TypeError
      end
  | None => Ok spentUtxos
  end.

(** First pass (lines 65-73). *)
Definition firstPass (address : string) (transactions : list Transaction)
  : result (gset string) :=
  forOf (λ spentUtxos tx,
           ins ← iterable (tx_inputs tx);
           forOf (markSpent address) spentUtxos ins)
        ∅ transactions.

(** The variables the second pass updates. *)
Record Tally : Type := mkTally {
  utxos : UtxoMap;
  incoming : jsval;
  outgoing : jsval;
  incomingPending : jsval;
  outgoingPending : jsval
}.

Definition emptyTally : Tally :=
  {| utxos := []; incoming := JNum 0; outgoing := JNum 0;
     incomingPending := JNum 0; outgoingPending := JNum 0 |}.

(** Second pass, body of the loop over outputs (lines 81-100). *)
Definition processOutput (address : string) (spentUtxos : gset string)
    (tx : Transaction) (i : nat) (output : Output) (t : Tally) : Tally :=
  if decide (output_address output = address) then
    let key := utxoKey (hashString tx) i in
    let value := output_value output in
    let isSpent := bool_decide (key ∈ spentUtxos) in
    let utxos' :=
      map_set key {| utxo_value := value; utxo_spent := isSpent;
                     utxo_confirmed := isConfirmed tx |} (utxos t) in
    if isConfirmed tx then
      {| utxos := utxos'; incoming := js_add (incoming t) value;
         outgoing := outgoing t; incomingPending := incomingPending t;
         outgoingPending := outgoingPending t |}
    else
      {| utxos := utxos'; incoming := incoming t;
         outgoing := outgoing t;
         incomingPending := js_add (incomingPending t) value;
         outgoingPending := outgoingPending t |}
  else t.

(** [for (let i = 0; i < tx.outputs.length; i++)], started at index [i]. *)
Fixpoint processOutputs (address : string) (spentUtxos : gset string)
    (tx : Transaction) (i : nat) (outs : list Output) (t : Tally) : Tally :=
  match outs with
  | [] => t
  | output :: rest =>
      processOutputs address spentUtxos tx (S i) rest
        (processOutput address spentUtxos tx i output t)
  end.

(** Second pass, body of the loop over inputs (lines 105-113). *)
Definition processInput (address : string) (tx : Transaction)
    (t : Tally) (input : Input) : Tally :=
  match spendsFrom address input with
  | Some c =>
      let value := coin_value c in
      if isConfirmed tx then
        {| utxos := utxos t; incoming := incoming t;
           outgoing := js_add (outgoing t) value;
           incomingPending := incomingPending t;
           outgoingPending := outgoingPending t |}
      else
        {| utxos := utxos t; incoming := incoming t;
           outgoing := outgoing t;
           incomingPending := incomingPending t;
           outgoingPending := js_add (outgoingPending t) value |}
  | None => t
  end.

(** Second pass, one transaction (lines 77-114). *)
Definition processTransaction (address : string) (spentUtxos : gset string)
    (t : Tally) (tx : Transaction) : result Tally :=
  outs ← iterable (tx_outputs tx);
  let t1 := processOutputs address spentUtxos tx 0 outs t in
  ins ← iterable (tx_inputs tx);
  Ok (foldl (processInput address tx) t1 ins).

(** Second pass (lines 76-115). *)
Definition secondPass (address : string) (spentUtxos : gset string)
    (transactions : list Transaction) : result Tally :=
  forOf (processTransaction address spentUtxos) emptyTally transactions.

(** Both passes: the UTXO map and the four running totals as they stand at
    line 116. *)
Definition classify (address : string) (transactions : list Transaction)
  : result Tally :=
  spentUtxos ← firstPass address transactions;
  secondPass address spentUtxos transactions.

(** Lines 118-123. *)
Definition availableOf (utxos : UtxoMap) : jsval :=
  foldl (λ availableBalance '(key, utxo),
           if negb (utxo_spent utxo) && utxo_confirmed utxo
           then js_add availableBalance (utxo_value utxo)
           else availableBalance)
        (JNum 0) utxos.

(** An element of [unspentUTXOs]. *)
Record Unspent : Type := mkUnspent {
  unspent_utxo : string;
  unspent_value : jsval;
  unspent_confirmed : bool
}.

#[global] Instance Unspent_eq_dec : EqDecision Unspent.
Proof. solve_decision. Defined.

(** Lines 132-138. *)
Definition unspentOf (utxos : UtxoMap) : list Unspent :=
  (λ '(key, utxo),
     {| unspent_utxo := key; unspent_value := utxo_value utxo;
        unspent_confirmed := utxo_confirmed utxo |})
  <$> filter (λ '(key, utxo), negb (utxo_spent utxo) = true) utxos.

(** The returned object. *)
Record Balance : Type := mkBalance {
  bal_incoming : jsval;
  bal_outgoing : jsval;
  bal_incomingPending : jsval;
  bal_outgoingPending : jsval;
  availableBalance : jsval;
  unspentUTXOs : list Unspent
}.

Definition analyzeUTXOs (address : string) (transactions : list Transaction)
  : result Balance :=
  t ← classify address transactions;
  Ok {| bal_incoming := incoming t;
        bal_outgoing := outgoing t;
        bal_incomingPending := incomingPending t;
        bal_outgoingPending := outgoingPending t;
        availableBalance := availableOf (utxos t);
        unspentUTXOs := unspentOf (utxos t) |}.

(** ** calculateMaxSendable (sendBTC.js) *)

Definition calculateMaxSendable (availableBalance feeInSatoshis : jsval) : jsval :=
  let maxSendable := js_sub availableBalance feeInSatoshis in
  if js_gt maxSendable (JNum 0) then maxSendable else JNum 0.

(** ** UTXO selection of sendTransaction (sendBTC.js) *)

(** The comparator [(a, b) => b.value - a.value]. *)
Definition byValueDesc (a b : Unspent) : jsval :=
  js_sub (unspent_value b) (unspent_value a).

(** [Array.prototype.sort] is a stable sort: [a] is moved behind [b] only when
    the comparator is positive on [(a, b)]; a [NaN] comparison counts as 0.
    For a consistent comparator the result is fixed by the language
    definition, and stable insertion computes it. *)
Fixpoint sort_insert (cmp : Unspent → Unspent → jsval) (a : Unspent)
    (l : list Unspent) : list Unspent :=
  match l with
  | [] => [a]
  | b :: l' =>
      if js_gt (cmp a b) (JNum 0) then b :: sort_insert cmp a l'
      else a :: b :: l'
  end.

Definition js_sort (cmp : Unspent → Unspent → jsval) (l : list Unspent)
  : list Unspent :=
  foldr (sort_insert cmp) [] l.

(** Lines 194-196. *)
Definition sortedUtxos (unspent : list Unspent) : list Unspent :=
  js_sort byValueDesc (filter (λ utxo, unspent_confirmed utxo = true) unspent).

(** Lines 202-209: the loop with its [break]. *)
Fixpoint selectLoop (requiredAmount : jsval) (sorted : list Unspent)
    (selectedUtxos : list Unspent) (inputSum : jsval)
  : list Unspent * jsval :=
  match sorted with
  | [] => (selectedUtxos, inputSum)
  | utxo :: rest =>
      let selectedUtxos' := selectedUtxos ++ [utxo] in
      let inputSum' := js_add inputSum (unspent_value utxo) in
      if js_ge inputSum' requiredAmount then (selectedUtxos', inputSum')
      else selectLoop requiredAmount rest selectedUtxos' inputSum'
  end.

Definition insufficientMessage (inputSum requiredAmount : jsval) : string :=
  "Insufficient confirmed funds. Have " +:+ js_toString inputSum +:+
  ", need " +:+ js_toString requiredAmount +:+ " satoshis.".

(** Lines 193-213: the selected UTXOs and their sum, or the thrown error. *)
Definition selectUtxos (unspent : list Unspent)
    (amountSatoshis feeSatoshis : jsval) : result (list Unspent * jsval) :=
  let requiredAmount := js_add amountSatoshis feeSatoshis in
  let '(selectedUtxos, inputSum) :=
    selectLoop requiredAmount (sortedUtxos unspent) [] (JNum 0) in
  if js_lt inputSum requiredAmount
  then Err (Error (insufficientMessage inputSum requiredAmount))
  else Ok (selectedUtxos, inputSum).

(** ** Concrete runs *)

Definition tx_X : Transaction :=
  {| tx_hash := Some "X"; tx_blockNumber := Some 100;
     tx_inputs := Some [];
     tx_outputs := Some [ {| output_address := "me"; output_value := JNum 5000 |} ] |}.

Definition tx_Y : Transaction :=
  {| tx_hash := Some "Y"; tx_blockNumber := None;
     tx_inputs := Some [ {| input_coin := Some {| coin_address := "me"; coin_value := JNum 5000 |};
                            input_prevout := Some {| prevout_hash := "X"; prevout_index := 0 |} |} ];
     tx_outputs := Some [ {| output_address := "you"; output_value := JNum 4000 |} ] |}.

Example run_XY :
  classify "me" [tx_X; tx_Y]
  = Ok {| utxos := [("X:0", {| utxo_value := JNum 5000; utxo_spent := true; utxo_confirmed := true |})];
          incoming := JNum 5000; outgoing := JNum 0;
          incomingPending := JNum 0; outgoingPending := JNum 5000 |}.
Proof. vm_compute. reflexivity. Qed.

Example run_select_A :
  selectUtxos [ {| unspent_utxo := "a:0"; unspent_value := JNum 50000; unspent_confirmed := true |} ]
              (JNum 10000) (JNum 1000)
  = Ok ([ {| unspent_utxo := "a:0"; unspent_value := JNum 50000; unspent_confirmed := true |} ], JNum 50000).
Proof. vm_compute. reflexivity. Qed.

(** ** Loops that may throw *)

Lemma forOf_cons {S A : Type} (body : S → A → result S) s x l :
  forOf body s (x :: l) = body s x ≫= λ s', forOf body s' l.
Proof. reflexivity. Qed.

(** ** Sums of JavaScript numbers *)

(** The running total of a loop [for (x of l) acc += x]. *)
Definition sumFrom (acc : jsval) (l : list jsval) : jsval := foldl js_add acc l.

Definition js_sum (l : list jsval) : jsval := sumFrom (JNum 0) l.

(** Summed [value] of a list of unspent entries. *)
Definition totalValue (l : list Unspent) : jsval := js_sum (unspent_value <$> l).

Definition confirmedOnly (l : list Unspent) : list Unspent :=
  filter (λ utxo, unspent_confirmed utxo = true) l.

Lemma js_add_comm a b : js_add a b = js_add b a.
Proof. destruct a, b; simpl; try reflexivity. f_equal. lia. Qed.

Lemma js_add_assoc a b c : js_add (js_add a b) c = js_add a (js_add b c).
Proof. destruct a, b, c; simpl; try reflexivity. f_equal. lia. Qed.

Lemma js_add_NaN_l a : js_add JNaN a = JNaN.
Proof. reflexivity. Qed.

Lemma js_add_NaN_r a : js_add a JNaN = JNaN.
Proof. by destruct a. Qed.

Lemma sumFrom_cons acc x l : sumFrom acc (x :: l) = sumFrom (js_add acc x) l.
Proof. reflexivity. Qed.

Lemma sumFrom_app acc l1 l2 : sumFrom acc (l1 ++ l2) = sumFrom (sumFrom acc l1) l2.
Proof. apply foldl_app. Qed.

Lemma sumFrom_NaN l : sumFrom JNaN l = JNaN.
Proof. induction l as [|x l IH]; [done|]. by rewrite sumFrom_cons. Qed.

Lemma sumFrom_add a b l : sumFrom (js_add a b) l = js_add a (sumFrom b l).
Proof.
  revert b. induction l as [|x l IH]; intros b; [done|].
  by rewrite !sumFrom_cons, js_add_assoc, IH.
Qed.

Lemma sumFrom_perm acc l1 l2 : l1 ≡ₚ l2 → sumFrom acc l1 = sumFrom acc l2.
Proof.
  intros Hp. revert acc.
  induction Hp as [|x l1 l2 _ IH|x y l|l1 l2 l3 _ IH1 _ IH2]; intros acc.
  - done.
  - rewrite !sumFrom_cons. apply IH.
  - rewrite !sumFrom_cons. f_equal.
    by rewrite !js_add_assoc, (js_add_comm y x).
  - by rewrite IH1.
Qed.

Lemma sumFrom_num_inv acc l t :
  sumFrom acc l = JNum t →
  ∃ a, acc = JNum a ∧ Forall (λ v, ∃ z, v = JNum z) l.
Proof.
  revert acc. induction l as [|x l IH]; intros acc H.
  - exists t. by split.
  - rewrite sumFrom_cons in H. apply IH in H as (s & Hs & Hl).
    destruct acc as [|a|], x as [|z|]; simplify_eq/=.
    exists a. split; [done|]. constructor; eauto.
Qed.

Lemma sumFrom_nonneg a l t :
  Forall (λ v, js_ge v (JNum 0) = true) l →
  sumFrom (JNum a) l = JNum t → a ≤ t.
Proof.
  revert a. induction l as [|x l IH]; intros a Hl H.
  - simpl in H. injection H as ->. lia.
  - apply Forall_cons in Hl as [Hx Hl]. rewrite sumFrom_cons in H.
    destruct x as [|z|]; simpl in Hx; try done.
    apply bool_decide_eq_true in Hx. simpl in H.
    apply IH in H; [lia|done].
Qed.

(** ** The sort of the selection *)

Lemma sort_insert_perm cmp a l : sort_insert cmp a l ≡ₚ a :: l.
Proof.
  induction l as [|b l IH]; simpl; [done|].
  case_match; [|done].
  rewrite IH. apply perm_swap.
Qed.

Lemma js_sort_perm cmp l : js_sort cmp l ≡ₚ l.
Proof.
  induction l as [|a l IH]; simpl; [done|].
  unfold js_sort in *. by rewrite sort_insert_perm, IH.
Qed.

Definition valueGe (a b : Unspent) : Prop :=
  js_ge (unspent_value a) (unspent_value b) = true.

Definition numeric (u : Unspent) : Prop := ∃ z, unspent_value u = JNum z.

Lemma valueGe_trans a b c : valueGe a b → valueGe b c → valueGe a c.
Proof.
  unfold valueGe.
  destruct (unspent_value a), (unspent_value b), (unspent_value c); simpl; try done.
  rewrite !bool_decide_eq_true. lia.
Qed.

Lemma sort_insert_sorted a l :
  numeric a → Forall numeric l →
  StronglySorted valueGe l → StronglySorted valueGe (sort_insert byValueDesc a l).
Proof.
  intros [za Ha] Hl Hs. induction Hs as [|b l Hs IH Hb]; simpl.
  - repeat constructor.
  - apply Forall_cons in Hl as [[zb Hb'] Hl].
    unfold byValueDesc at 1. rewrite Ha, Hb'. simpl.
    case_bool_decide as Hcmp.
    + constructor; [by apply IH|].
      rewrite sort_insert_perm. constructor; [|done].
      unfold valueGe. rewrite Ha, Hb'. simpl. apply bool_decide_eq_true. lia.
    + assert (valueGe a b) as Hab.
      { unfold valueGe. rewrite Ha, Hb'. simpl. apply bool_decide_eq_true. lia. }
      constructor; [by constructor|].
      constructor; [done|].
      eapply Forall_impl; [exact Hb|]. intros c Hc. by eapply valueGe_trans.
Qed.

Lemma js_sort_sorted l :
  Forall numeric l → StronglySorted valueGe (js_sort byValueDesc l).
Proof.
  induction l as [|a l IH]; intros Hl; simpl; [constructor|].
  apply Forall_cons in Hl as [Ha Hl].
  apply sort_insert_sorted; [done| |by apply IH].
  fold (js_sort byValueDesc l). by rewrite js_sort_perm.
Qed.

(** A list that is already in descending order is left as it is: the sort is
    stable. *)
Lemma js_sort_stable l :
  Forall numeric l → StronglySorted valueGe l → js_sort byValueDesc l = l.
Proof.
  intros Hn Hs. induction Hs as [|a l Hs IH Ha]; [done|].
  apply Forall_cons in Hn as [[za Hza] Hn].
  simpl. fold (js_sort byValueDesc l). rewrite IH by done.
  destruct l as [|b l]; [done|]. simpl.
  apply Forall_cons in Ha as [Hab _]. apply Forall_cons in Hn as [[zb Hzb] _].
  unfold valueGe in Hab. unfold byValueDesc. rewrite Hza, Hzb in *. simpl in *.
  apply bool_decide_eq_true in Hab.
  rewrite bool_decide_eq_false_2 by lia. done.
Qed.

Lemma sortedUtxos_perm l : sortedUtxos l ≡ₚ confirmedOnly l.
Proof. apply js_sort_perm. Qed.

Lemma totalValue_perm l1 l2 : l1 ≡ₚ l2 → totalValue l1 = totalValue l2.
Proof. intros Hp. apply sumFrom_perm. by rewrite Hp. Qed.

Lemma totalValue_numeric l t : totalValue l = JNum t → Forall numeric l.
Proof.
  intros H. apply sumFrom_num_inv in H as (z0 & _ & H).
  rewrite Forall_fmap in H. eapply Forall_impl; [exact H|].
  intros u Hu. exact Hu.
Qed.

(** ** The selection loop *)

(** When the values still to come reach the required amount, the loop stops
    after the shortest prefix that reaches it. *)
Lemma selectLoop_stops required sorted :
  ∀ (selected : list Unspent) (acc : Z),
    acc < required →
    js_ge (sumFrom (JNum acc) (unspent_value <$> sorted)) (JNum required) = true →
    ∃ (k : nat) (inputSum : Z),
      (0 < k ≤ length sorted)%nat
      ∧ selectLoop (JNum required) sorted selected (JNum acc)
        = (selected ++ take k sorted, JNum inputSum)
      ∧ sumFrom (JNum acc) (unspent_value <$> take k sorted) = JNum inputSum
      ∧ required ≤ inputSum
      ∧ ∀ j, (j < k)%nat →
          ∃ s, sumFrom (JNum acc) (unspent_value <$> take j sorted) = JNum s
               ∧ s < required.
Proof.
  induction sorted as [|utxo rest IH]; intros selected acc Hacc Hge.
  - simpl in Hge. apply bool_decide_eq_true in Hge. lia.
  - rewrite fmap_cons, sumFrom_cons in Hge.
    destruct (unspent_value utxo) as [|v|] eqn:Hv;
      try (simpl in Hge; rewrite sumFrom_NaN in Hge; discriminate).
    simpl in Hge. simpl selectLoop. rewrite Hv. simpl js_add.
    destruct (decide (required ≤ acc + v)) as [Hstop|Hgo].
    + exists 1%nat, (acc + v). simpl.
      rewrite bool_decide_eq_true_2 by done.
      split_and!; [lia|lia|done|by rewrite Hv|done|].
      intros j Hj. assert (j = 0%nat) as -> by lia.
      exists acc. by split.
    + simpl js_ge. rewrite bool_decide_eq_false_2 by done.
      destruct (IH (selected ++ [utxo]) (acc + v)) as (k & s & Hk & Hrun & Hsum & Hs & Hmin);
        [lia|done|].
      exists (S k), s. simpl.
      split_and!; [lia|lia| |by rewrite Hv|done|].
      * by rewrite Hrun, <-app_assoc.
      * intros [|j] Hj.
        { exists acc. split; [done|lia]. }
        destruct (Hmin j) as (sj & Hsj & Hlt); [lia|].
        exists sj. simpl. by rewrite Hv.
Qed.

(** When non-negative values never reach the required amount, the loop runs
    through the whole array. *)
Lemma selectLoop_exhausts required sorted :
  ∀ (selected : list Unspent) (acc total : Z),
    Forall (λ u, js_ge (unspent_value u) (JNum 0) = true) sorted →
    sumFrom (JNum acc) (unspent_value <$> sorted) = JNum total →
    total < required →
    selectLoop (JNum required) sorted selected (JNum acc)
    = (selected ++ sorted, JNum total).
Proof.
  induction sorted as [|utxo rest IH]; intros selected acc total Hpos Hsum Hlt.
  - simpl in *. by rewrite app_nil_r, Hsum.
  - apply Forall_cons in Hpos as [Hu Hpos].
    rewrite fmap_cons, sumFrom_cons in Hsum.
    destruct (unspent_value utxo) as [|v|] eqn:Hv; try done.
    simpl in Hsum. simpl selectLoop. rewrite Hv. simpl js_add.
    assert (acc + v ≤ total).
    { eapply sumFrom_nonneg; [|exact Hsum].
      rewrite Forall_fmap. exact Hpos. }
    simpl js_ge. rewrite bool_decide_eq_false_2 by lia.
    rewrite (IH _ _ total) by done. by rewrite <-app_assoc.
Qed.

Lemma sortedUtxos_confirmed unspent u :
  u ∈ sortedUtxos unspent → unspent_confirmed u = true ∧ u ∈ unspent.
Proof.
  rewrite sortedUtxos_perm. unfold confirmedOnly.
  rewrite list_elem_of_filter. tauto.
Qed.

(** C1.  When the confirmed entries are worth at least [amount + fee], for
    [amount > 0] and [fee >= 0], the selection succeeds; what it selects is a
    prefix of the confirmed entries in descending order of value, the
    shortest one whose sum reaches [amount + fee]; so the sum of the selection
    is at least [amount + fee], the change is not negative, and every
    selected entry is a confirmed entry of the input. *)
Theorem selectUtxos_greedy_prefix (unspent : list Unspent) (amount fee : Z) :
  0 < amount → 0 ≤ fee →
  js_ge (totalValue (confirmedOnly unspent)) (JNum (amount + fee)) = true →
  ∃ (k : nat) (inputSum : Z),
    selectUtxos unspent (JNum amount) (JNum fee)
    = Ok (take k (sortedUtxos unspent), JNum inputSum)
    ∧ sortedUtxos unspent ≡ₚ confirmedOnly unspent
    ∧ StronglySorted valueGe (sortedUtxos unspent)
    ∧ totalValue (take k (sortedUtxos unspent)) = JNum inputSum
    ∧ amount + fee ≤ inputSum
    ∧ (∀ j, (j < k)%nat →
         ∃ s, totalValue (take j (sortedUtxos unspent)) = JNum s
              ∧ s < amount + fee)
    ∧ 0 ≤ inputSum - amount - fee
    ∧ Forall (λ u, unspent_confirmed u = true ∧ u ∈ unspent)
             (take k (sortedUtxos unspent)).
Proof.
  intros Hamount Hfee Htotal.
  assert (Forall numeric (confirmedOnly unspent)) as Hnum.
  { destruct (totalValue (confirmedOnly unspent)) as [|t|] eqn:Ht; try done.
    by eapply totalValue_numeric. }
  rewrite <-(totalValue_perm _ _ (sortedUtxos_perm unspent)) in Htotal.
  destruct (selectLoop_stops (amount + fee) (sortedUtxos unspent) [] 0)
    as (k & s & Hk & Hrun & Hsum & Hs & Hmin); [lia|exact Htotal|].
  exists k, s. unfold selectUtxos. simpl js_add. rewrite Hrun. simpl.
  rewrite bool_decide_eq_false_2 by lia.
  split_and!; try done.
  - apply sortedUtxos_perm.
  - by apply js_sort_sorted.
  - lia.
  - apply Forall_forall. intros u Hu.
    apply sortedUtxos_confirmed. by eapply subseteq_take.
Qed.

(** Scenario A: one confirmed entry of 50000, a payment of 10000 with a fee
    of 1000. *)
Lemma selectUtxos_greedy_prefix_witness :
  ∃ (k : nat) (inputSum : Z),
    selectUtxos [mkUnspent "a:0" (JNum 50000) true] (JNum 10000) (JNum 1000)
    = Ok (take k (sortedUtxos [mkUnspent "a:0" (JNum 50000) true]), JNum inputSum)
    ∧ 0 ≤ inputSum - 10000 - 1000.
Proof.
  destruct (selectUtxos_greedy_prefix
              [mkUnspent "a:0" (JNum 50000) true] 10000 1000)
    as (k & s & H1 & _ & _ & _ & _ & _ & H7 & _).
  - lia.
  - lia.
  - reflexivity.
  - exists k, s. split; [exact H1 | exact H7].
Defined.

(** ** Strings built by template literals *)

Fixpoint occurs (c : ascii) (s : string) : bool :=
  match s with
  | EmptyString => false
  | String a s' => bool_decide (a = c) || occurs c s'
  end.

Lemma occurs_app c s1 s2 : occurs c (s1 +:+ s2) = occurs c s1 || occurs c s2.
Proof.
  induction s1 as [|a s1 IH]; simpl; [done|].
  by rewrite IH, orb_assoc.
Qed.

(** A separator that does not occur after it splits a string in one way. *)
Lemma append_sep_inj_r c h1 h2 d1 d2 :
  occurs c d1 = false → occurs c d2 = false →
  h1 +:+ String c d1 = h2 +:+ String c d2 → h1 = h2 ∧ d1 = d2.
Proof.
  intros Hd1 Hd2. revert h2.
  induction h1 as [|a h1 IH]; intros [|b h2] Heq; simpl in Heq.
  - by injection Heq as ->.
  - injection Heq as _ Heq. rewrite Heq, occurs_app in Hd1. simpl in Hd1.
    rewrite bool_decide_eq_true_2, orb_true_r in Hd1 by done. done.
  - injection Heq as _ Heq. rewrite <-Heq, occurs_app in Hd2. simpl in Hd2.
    rewrite bool_decide_eq_true_2, orb_true_r in Hd2 by done. done.
  - injection Heq as -> Heq. apply IH in Heq as [-> ->]. done.
Qed.

(** A separator that does not occur before it splits a string in one way. *)
Lemma append_sep_inj_l c d1 d2 r1 r2 :
  occurs c d1 = false → occurs c d2 = false →
  d1 +:+ String c r1 = d2 +:+ String c r2 → d1 = d2 ∧ r1 = r2.
Proof.
  revert d2. induction d1 as [|a d1 IH]; intros [|b d2] Hd1 Hd2 Heq;
    simpl in *.
  - by injection Heq as ->.
  - injection Heq as <- _. by rewrite bool_decide_eq_true_2 in Hd2.
  - injection Heq as -> _. by rewrite bool_decide_eq_true_2 in Hd1.
  - injection Heq as -> Heq.
    apply orb_false_iff in Hd1 as [_ Hd1]. apply orb_false_iff in Hd2 as [_ Hd2].
    destruct (IH d2 Hd1 Hd2 Heq) as [-> ->]. done.
Qed.

Definition notDigit (c : ascii) : Prop := ∀ n : N, pretty_N_char n ≠ c.

Lemma occurs_pretty_N_go c (x : N) (s : string) :
  notDigit c → occurs c (pretty_N_go x s) = occurs c s.
Proof.
  intros Hc. revert s.
  induction (N.lt_wf_0 x) as [x _ IH]; intros s.
  destruct (decide (x = 0%N)) as [->|Hx].
  - by rewrite pretty_N_go_0.
  - rewrite pretty_N_go_step by lia.
    rewrite IH by (apply N.div_lt; lia). simpl.
    rewrite bool_decide_eq_false_2; [done|apply Hc].
Qed.

Lemma occurs_pretty_N c (x : N) :
  notDigit c → occurs c (pretty x) = false.
Proof.
  intros Hc. unfold pretty, pretty_N. case_decide.
  - simpl. rewrite bool_decide_eq_false_2; [done|]. apply (Hc 0%N).
  - by rewrite occurs_pretty_N_go.
Qed.

Lemma occurs_pretty_nat c (n : nat) : notDigit c → occurs c (pretty n) = false.
Proof. apply occurs_pretty_N. Qed.

Lemma occurs_pretty_Z c (z : Z) :
  notDigit c → c ≠ "-"%char → occurs c (pretty z) = false.
Proof.
  intros Hc Hdash. destruct z as [|p|p]; unfold pretty, pretty_Z.
  - simpl. rewrite bool_decide_eq_false_2; [done|]. apply (Hc 0%N).
  - by apply (occurs_pretty_N c (N.pos p)).
  - rewrite occurs_app. simpl.
    rewrite bool_decide_eq_false_2 by done. simpl.
    by apply (occurs_pretty_N c (N.pos p)).
Qed.

Lemma notDigit_colon : notDigit ":".
Proof. intros n. unfold pretty_N_char. by repeat case_match. Qed.

Lemma notDigit_comma : notDigit ",".
Proof. intros n. unfold pretty_N_char. by repeat case_match. Qed.

Lemma notDigit_space : notDigit " ".
Proof. intros n. unfold pretty_N_char. by repeat case_match. Qed.

Lemma utxoKey_unfold hash index :
  utxoKey hash index = hash +:+ String ":" (pretty index).
Proof. reflexivity. Qed.

(** The key determines the output reference. *)
Lemma utxoKey_inj h1 i1 h2 i2 :
  utxoKey h1 i1 = utxoKey h2 i2 → h1 = h2 ∧ i1 = i2.
Proof.
  rewrite !utxoKey_unfold. intros Heq.
  apply append_sep_inj_r in Heq as [-> Hi];
    [|apply occurs_pretty_nat, notDigit_colon..].
  split; [done|]. by apply (inj pretty).
Qed.

Lemma insufficientMessage_unfold (have need : Z) :
  insufficientMessage (JNum have) (JNum need)
  = "Insufficient confirmed funds. Have " +:+
    (pretty have +:+ String "," (" need " +:+ (pretty need +:+ String " " "satoshis."))).
Proof. reflexivity. Qed.

(** The message determines both amounts. *)
Lemma insufficientMessage_inj (have need have' need' : Z) :
  insufficientMessage (JNum have) (JNum need)
  = insufficientMessage (JNum have') (JNum need') →
  have = have' ∧ need = need'.
Proof.
  rewrite !insufficientMessage_unfold. intros Heq.
  apply (inj (String.app _)) in Heq.
  apply append_sep_inj_l in Heq as [Hh Heq];
    [|by apply occurs_pretty_Z; [apply notDigit_comma|]..].
  apply (inj (String.app " need ")) in Heq.
  apply append_sep_inj_l in Heq as [Hn _];
    [|by apply occurs_pretty_Z; [apply notDigit_space|]..].
  split; by apply (inj pretty).
Qed.

(** C4.  When the confirmed entries (of non-negative value, as UTXO values
    are) are worth less than [amount + fee], the selection returns no plan:
    it throws the error whose message carries the amount available and the
    amount required, and the message determines both, hence the shortfall
    [required - available].  The bounds [amount > 0] and [fee >= 0] are not
    needed for this. *)
Theorem selectUtxos_insufficient (unspent : list Unspent) (amount fee available : Z) :
  Forall (λ u, js_ge (unspent_value u) (JNum 0) = true) (confirmedOnly unspent) →
  totalValue (confirmedOnly unspent) = JNum available →
  available < amount + fee →
  selectUtxos unspent (JNum amount) (JNum fee)
  = Err (Error (insufficientMessage (JNum available) (JNum (amount + fee))))
  ∧ ∀ have need : Z,
      insufficientMessage (JNum have) (JNum need)
      = insufficientMessage (JNum available) (JNum (amount + fee)) →
      have = available ∧ need = amount + fee
      ∧ need - have = amount + fee - available.
Proof.
  intros Hpos Htotal Hlt. split.
  - rewrite <-(totalValue_perm _ _ (sortedUtxos_perm unspent)) in Htotal.
    unfold selectUtxos. simpl js_add.
    rewrite (selectLoop_exhausts _ _ [] 0 available); [| |exact Htotal|done].
    + simpl. by rewrite bool_decide_eq_true_2.
    + apply Forall_forall. intros u Hu.
      rewrite Forall_forall in Hpos. apply Hpos.
      by rewrite <-sortedUtxos_perm.
  - intros have need Hmsg.
    apply insufficientMessage_inj in Hmsg as [-> ->]. done.
Qed.

(** Scenario D: confirmed entries of 400 and 500 (and a pending one, which
    does not count), a payment of 1000 with a fee of 100: the shortfall is
    200. *)
Lemma selectUtxos_insufficient_witness :
  selectUtxos [mkUnspent "a:0" (JNum 400) true;
               mkUnspent "b:1" (JNum 7000) false;
               mkUnspent "c:0" (JNum 500) true] (JNum 1000) (JNum 100)
  = Err (Error "Insufficient confirmed funds. Have 900, need 1100 satoshis.")
  ∧ (1000 + 100) - 900 = 200.
Proof.
  split; [|reflexivity].
  refine (proj1 (selectUtxos_insufficient
            [mkUnspent "a:0" (JNum 400) true;
             mkUnspent "b:1" (JNum 7000) false;
             mkUnspent "c:0" (JNum 500) true] 1000 100 900 _ _ _)).
  - unfold confirmedOnly. simpl. repeat constructor.
  - reflexivity.
  - lia.
Defined.

(** C10.  On integer amounts [calculateMaxSendable] returns the balance less
    the fee when that is positive and 0 otherwise; on any arguments whatever
    (also [NaN] or [undefined]) it returns a number that is not negative. *)
Theorem calculateMaxSendable_spec :
  (∀ balance fee : Z,
     calculateMaxSendable (JNum balance) (JNum fee)
     = JNum (if decide (0 < balance - fee) then balance - fee else 0))
  ∧ (∀ balance fee : jsval,
       ∃ r : Z, calculateMaxSendable balance fee = JNum r ∧ 0 ≤ r).
Proof.
  split.
  - intros balance fee. unfold calculateMaxSendable. simpl.
    case_bool_decide; case_decide; done || lia.
  - intros balance fee. unfold calculateMaxSendable.
    destruct balance as [|b|], fee as [|f|]; simpl; try (exists 0; done).
    case_bool_decide; [exists (b - f)|exists 0]; split; done || lia.
Qed.

(** ** The UTXO map *)

Definition keysOf (m : UtxoMap) : list string := m.*1.

Lemma map_get_set_eq key entry m : map_get key (map_set key entry m) = Some entry.
Proof.
  induction m as [|[k e] m IH]; simpl.
  - by rewrite decide_True.
  - destruct (decide (k = key)) as [->|Hne]; simpl.
    + by rewrite decide_True.
    + by rewrite decide_False.
Qed.

Lemma map_get_set_ne key key' entry m :
  key ≠ key' → map_get key' (map_set key entry m) = map_get key' m.
Proof.
  intros Hne. induction m as [|[k e] m IH]; simpl.
  - by rewrite decide_False.
  - destruct (decide (k = key)) as [->|Hk]; simpl.
    + by rewrite !decide_False.
    + by rewrite IH.
Qed.

Lemma map_set_fresh key entry m :
  key ∉ keysOf m → map_set key entry m = m ++ [(key, entry)].
Proof.
  unfold keysOf. induction m as [|[k e] m IH]; simpl; intros Hk; [done|].
  apply not_elem_of_cons in Hk as [Hne Hk].
  rewrite decide_False by done. by rewrite IH.
Qed.

Lemma keysOf_map_set key entry m k :
  k ∈ keysOf (map_set key entry m) ↔ k = key ∨ k ∈ keysOf m.
Proof.
  unfold keysOf. induction m as [|[k' e'] m IH]; simpl.
  - set_solver.
  - destruct (decide (k' = key)) as [->|Hne]; simpl.
    + rewrite elem_of_cons. tauto.
    + rewrite !elem_of_cons, IH. tauto.
Qed.

Lemma map_set_NoDup key entry m :
  NoDup (keysOf m) → NoDup (keysOf (map_set key entry m)).
Proof.
  induction m as [|[k e] m IH]; simpl; intros Hnd.
  - apply NoDup_singleton.
  - apply NoDup_cons in Hnd as [Hk Hnd].
    destruct (decide (k = key)) as [->|Hne]; simpl.
    + by apply NoDup_cons.
    + apply NoDup_cons. split; [|by apply IH].
      fold (keysOf (map_set key entry m)). rewrite keysOf_map_set.
      intros [?|?]; [congruence|]. by apply Hk.
Qed.

Lemma elem_of_map_set key entry m k e :
  (k, e) ∈ map_set key entry m → (k, e) = (key, entry) ∨ (k, e) ∈ m.
Proof.
  induction m as [|[k' e'] m IH]; simpl.
  - set_solver.
  - destruct (decide (k' = key)) as [->|Hne].
    + rewrite !elem_of_cons. tauto.
    + rewrite !elem_of_cons. intros [?|?]; [tauto|]. apply IH in H. tauto.
Qed.

Lemma map_get_Some key m e : map_get key m = Some e → (key, e) ∈ m.
Proof.
  induction m as [|[k' e'] m IH]; simpl; [done|].
  destruct (decide (k' = key)) as [->|Hne].
  - intros [= ->]. left.
  - intros H. right. by apply IH.
Qed.

Lemma map_get_elem_of key m e :
  NoDup (keysOf m) → (key, e) ∈ m → map_get key m = Some e.
Proof.
  unfold keysOf. induction m as [|[k' e'] m IH]; simpl; intros Hnd Hin.
  - by apply elem_of_nil in Hin.
  - apply NoDup_cons in Hnd as [Hk Hnd].
    apply elem_of_cons in Hin as [[= <- <-]|Hin].
    + by rewrite decide_True.
    + destruct (decide (k' = key)) as [->|Hne]; [|by apply IH].
      exfalso. apply Hk. apply list_elem_of_fmap. by exists (key, e).
Qed.

(** One [set] per element of a list of writes. *)
Definition setEntry (m : UtxoMap) (w : string * UtxoEntry) : UtxoMap :=
  map_set w.1 w.2 m.

Lemma setEntries_NoDup ws m :
  NoDup (keysOf m) → NoDup (keysOf (foldl setEntry m ws)).
Proof.
  revert m. induction ws as [|w ws IH]; intros m Hm; simpl; [done|].
  apply IH. by apply map_set_NoDup.
Qed.

Lemma elem_of_setEntries ws m k e :
  (k, e) ∈ foldl setEntry m ws → (k, e) ∈ m ∨ (k, e) ∈ ws.
Proof.
  revert m. induction ws as [|w ws IH]; intros m; simpl; [tauto|].
  intros H. apply IH in H as [H|H]; [|set_solver].
  apply elem_of_map_set in H as [H|H]; [|tauto].
  right. destruct w. simpl in H. rewrite H. left.
Qed.

(** Writes under pairwise different keys are appended in order. *)
Lemma setEntries_fresh ws m :
  NoDup (keysOf m ++ keysOf ws) → foldl setEntry m ws = m ++ ws.
Proof.
  revert m. induction ws as [|[k e] ws IH]; intros m Hnd; simpl.
  - by rewrite app_nil_r.
  - unfold setEntry at 2. simpl.
    rewrite map_set_fresh.
    + rewrite IH; [by rewrite <-app_assoc|].
      unfold keysOf in *. rewrite fmap_app. simpl.
      by rewrite <-app_assoc.
    + apply NoDup_app in Hnd as (_ & Hdisj & _).
      intros Hk. apply (Hdisj k Hk). unfold keysOf. simpl. left.
Qed.

(** ** What the second pass computes, transaction by transaction *)

Definition outputsOf (tx : Transaction) : list Output := default [] (tx_outputs tx).
Definition inputsOf (tx : Transaction) : list Input := default [] (tx_inputs tx).

(** The entry recorded for output [i] of [tx]. *)
Definition entryOf (spentUtxos : gset string) (tx : Transaction) (i : nat)
    (output : Output) : string * UtxoEntry :=
  (utxoKey (hashString tx) i,
   {| utxo_value := output_value output;
      utxo_spent := bool_decide (utxoKey (hashString tx) i ∈ spentUtxos);
      utxo_confirmed := isConfirmed tx |}).

(** The entries recorded for the outputs [outs], numbered from [i]. *)
Fixpoint writesFrom (address : string) (spentUtxos : gset string)
    (tx : Transaction) (i : nat) (outs : list Output) : list (string * UtxoEntry) :=
  match outs with
  | [] => []
  | output :: rest =>
      (if decide (output_address output = address)
       then [entryOf spentUtxos tx i output] else [])
      ++ writesFrom address spentUtxos tx (S i) rest
  end.

Definition writesOf (address : string) (spentUtxos : gset string)
    (tx : Transaction) : list (string * UtxoEntry) :=
  writesFrom address spentUtxos tx 0 (outputsOf tx).

Definition writes (address : string) (spentUtxos : gset string)
    (transactions : list Transaction) : list (string * UtxoEntry) :=
  transactions ≫= writesOf address spentUtxos.

(** Values of the outputs of [tx] that pay [address]. *)
Definition paidTo (address : string) (tx : Transaction) : list jsval :=
  output_value <$> filter (λ o, output_address o = address) (outputsOf tx).

(** Values of the coins of [address] that the inputs of [tx] consume. *)
Definition takenFrom (address : string) (tx : Transaction) : list jsval :=
  omap (λ input, coin_value <$> spendsFrom address input) (inputsOf tx).

Definition withState (confirmed : bool) (transactions : list Transaction)
  : list Transaction :=
  filter (λ tx, isConfirmed tx = confirmed) transactions.

Definition incomingValues (address : string) (confirmed : bool)
    (transactions : list Transaction) : list jsval :=
  withState confirmed transactions ≫= paidTo address.

Definition outgoingValues (address : string) (confirmed : bool)
    (transactions : list Transaction) : list jsval :=
  withState confirmed transactions ≫= takenFrom address.

Section second_pass.
Variables (address : string) (spentUtxos : gset string).

Lemma processOutputs_spec tx outs : ∀ i t,
  let t' := processOutputs address spentUtxos tx i outs t in
  let paid := output_value <$> filter (λ o, output_address o = address) outs in
  utxos t' = foldl setEntry (utxos t) (writesFrom address spentUtxos tx i outs)
  ∧ incoming t' = sumFrom (incoming t) (if isConfirmed tx then paid else [])
  ∧ incomingPending t'
    = sumFrom (incomingPending t) (if isConfirmed tx then [] else paid)
  ∧ outgoing t' = outgoing t
  ∧ outgoingPending t' = outgoingPending t.
Proof.
  induction outs as [|o outs IH]; intros i t; simpl.
  - by destruct (isConfirmed tx).
  - destruct (IH (S i) (processOutput address spentUtxos tx i o t))
      as (Hu & Hi & Hp & Ho & Hop).
    rewrite Hu, Hi, Hp, Ho, Hop. clear Hu Hi Hp Ho Hop.
    unfold processOutput. rewrite filter_cons.
    destruct (decide (output_address o = address)) as [Ho|Ho]; simpl.
    + unfold setEntry at 2. unfold entryOf. simpl.
      destruct (isConfirmed tx); simpl; done.
    + by destruct (isConfirmed tx).
Qed.

Lemma processInputs_spec tx ins : ∀ t,
  let t' := foldl (processInput address tx) t ins in
  let taken := omap (λ input, coin_value <$> spendsFrom address input) ins in
  utxos t' = utxos t
  ∧ incoming t' = incoming t
  ∧ incomingPending t' = incomingPending t
  ∧ outgoing t' = sumFrom (outgoing t) (if isConfirmed tx then taken else [])
  ∧ outgoingPending t'
    = sumFrom (outgoingPending t) (if isConfirmed tx then [] else taken).
Proof.
  induction ins as [|input ins IH]; intros t; simpl.
  - by destruct (isConfirmed tx).
  - destruct (IH (processInput address tx t input)) as (Hu & Hi & Hp & Ho & Hop).
    rewrite Hu, Hi, Hp, Ho, Hop. clear Hu Hi Hp Ho Hop.
    unfold processInput.
    destruct (spendsFrom address input) as [c|]; simpl.
    + destruct (isConfirmed tx); simpl; done.
    + by destruct (isConfirmed tx).
Qed.

Lemma processTransaction_Ok t tx t' :
  processTransaction address spentUtxos t tx = Ok t' →
  ∃ outs ins, tx_outputs tx = Some outs ∧ tx_inputs tx = Some ins
    ∧ t' = foldl (processInput address tx)
             (processOutputs address spentUtxos tx 0 outs t) ins.
Proof.
  unfold processTransaction.
  destruct (tx_outputs tx) as [outs|]; simpl; [|done].
  destruct (tx_inputs tx) as [ins|]; simpl; [|done].
  intros [= <-]. eauto.
Qed.

Lemma withState_cons c tx txs :
  withState c (tx :: txs)
  = if decide (isConfirmed tx = c) then tx :: withState c txs else withState c txs.
Proof. unfold withState. by rewrite filter_cons. Qed.

Lemma incomingValues_cons c tx txs :
  incomingValues address c (tx :: txs)
  = (if decide (isConfirmed tx = c) then paidTo address tx else [])
    ++ incomingValues address c txs.
Proof.
  unfold incomingValues. rewrite withState_cons.
  by destruct (decide (isConfirmed tx = c)).
Qed.

Lemma outgoingValues_cons c tx txs :
  outgoingValues address c (tx :: txs)
  = (if decide (isConfirmed tx = c) then takenFrom address tx else [])
    ++ outgoingValues address c txs.
Proof.
  unfold outgoingValues. rewrite withState_cons.
  by destruct (decide (isConfirmed tx = c)).
Qed.

(** The second pass from any starting tally. *)
Lemma secondPass_from txs : ∀ t0 t,
  forOf (processTransaction address spentUtxos) t0 txs = Ok t →
  utxos t = foldl setEntry (utxos t0) (writes address spentUtxos txs)
  ∧ incoming t = sumFrom (incoming t0) (incomingValues address true txs)
  ∧ incomingPending t
    = sumFrom (incomingPending t0) (incomingValues address false txs)
  ∧ outgoing t = sumFrom (outgoing t0) (outgoingValues address true txs)
  ∧ outgoingPending t
    = sumFrom (outgoingPending t0) (outgoingValues address false txs).
Proof.
  induction txs as [|tx txs IH]; intros t0 t; simpl.
  - by intros [= <-].
  - destruct (processTransaction address spentUtxos t0 tx) as [t1|e] eqn:Htx;
      simpl; [|done].
    intros Hrest. apply IH in Hrest as (Hu & Hi & Hp & Ho & Hop).
    apply processTransaction_Ok in Htx as (outs & ins & Houts & Hins & ->).
    destruct (processInputs_spec tx ins
                (processOutputs address spentUtxos tx 0 outs t0))
      as (Hu1 & Hi1 & Hp1 & Ho1 & Hop1).
    destruct (processOutputs_spec tx outs 0%nat t0)
      as (Hu2 & Hi2 & Hp2 & Ho2 & Hop2).
    simpl in *.
    rewrite Hu1, Hu2 in Hu. rewrite Hi1, Hi2 in Hi. rewrite Hp1, Hp2 in Hp.
    rewrite Ho1, Ho2 in Ho. rewrite Hop1, Hop2 in Hop.
    rewrite Hu, Hi, Hp, Ho, Hop.
    rewrite !incomingValues_cons, !outgoingValues_cons.
    unfold writes, writesOf, paidTo, takenFrom, outputsOf, inputsOf.
    rewrite Houts, Hins. simpl.
    rewrite foldl_app, !sumFrom_app.
    by destruct (isConfirmed tx).
Qed.
End second_pass.

(** ** What the first pass computes *)

(** The key an input marks as spent, if it marks one. *)
Definition spentRef (address : string) (input : Input) : option string :=
  _ ← spendsFrom address input;
  p ← input_prevout input;
  Some (utxoKey (prevout_hash p) (prevout_index p)).

Definition spentRefs (address : string) (transactions : list Transaction)
  : list string :=
  transactions ≫= (λ tx, omap (spentRef address) (inputsOf tx)).

(** The inputs for which line 69 does not throw. *)
Definition prevoutOk (address : string) (input : Input) : Prop :=
  is_Some (spendsFrom address input) → is_Some (input_prevout input).

(** The transactions on which the first pass does not throw. *)
Definition inputsOk (address : string) (tx : Transaction) : Prop :=
  ∃ ins, tx_inputs tx = Some ins ∧ Forall (prevoutOk address) ins.

(** The transactions on which neither pass throws. *)
Definition wellFormed (address : string) (tx : Transaction) : Prop :=
  is_Some (tx_outputs tx) ∧ inputsOk address tx.

Section first_pass.
Variable address : string.

Lemma markSpent_cases input (s0 : gset string) :
  (prevoutOk address input
   ∧ markSpent address s0 input
     = Ok (list_to_set (option_list (spentRef address input)) ∪ s0))
  ∨ (¬ prevoutOk address input ∧ markSpent address s0 input = Err TypeError).
Proof.
  unfold markSpent, spentRef, prevoutOk.
  destruct (spendsFrom address input) as [c|]; simpl.
  - destruct (input_prevout input) as [p|]; simpl.
    + left. split; [eauto|]. f_equal. set_solver.
    + right. split; [|done]. intros H. destruct H as [? ?]; [eauto|done].
  - left. split; [by intros [? ?]|]. f_equal. set_solver.
Qed.

Lemma markSpent_loop ins : ∀ s0 : gset string,
  (Forall (prevoutOk address) ins
   ∧ forOf (markSpent address) s0 ins
     = Ok (list_to_set (omap (spentRef address) ins) ∪ s0))
  ∨ (¬ Forall (prevoutOk address) ins
     ∧ forOf (markSpent address) s0 ins = Err TypeError).
Proof.
  induction ins as [|input ins IH]; intros s0.
  - left. split; [constructor|]. simpl. f_equal. set_solver.
  - rewrite forOf_cons.
    destruct (markSpent_cases input s0) as [[Hok ->]|[Hbad ->]]; simpl.
    + destruct (IH (list_to_set (option_list (spentRef address input)) ∪ s0))
        as [[Hoks ->]|[Hbads ->]].
      * left. split; [by constructor|]. f_equal.
        destruct (spentRef address input); simpl; set_solver.
      * right. split; [|done]. intros H. apply Hbads.
        by apply Forall_cons in H as [_ H].
    + right. split; [|done]. intros H. apply Hbad.
      by apply Forall_cons in H as [H _].
Qed.

Lemma firstPass_from txs : ∀ s0 : gset string,
  (Forall (inputsOk address) txs
   ∧ forOf (λ spentUtxos tx,
              ins ← iterable (tx_inputs tx);
              forOf (markSpent address) spentUtxos ins) s0 txs
     = Ok (list_to_set (spentRefs address txs) ∪ s0))
  ∨ (¬ Forall (inputsOk address) txs
     ∧ forOf (λ spentUtxos tx,
                ins ← iterable (tx_inputs tx);
                forOf (markSpent address) spentUtxos ins) s0 txs
       = Err TypeError).
Proof.
  induction txs as [|tx txs IH]; intros s0.
  - left. split; [constructor|]. simpl. f_equal. set_solver.
  - simpl forOf. unfold spentRefs. rewrite bind_cons. fold (spentRefs address txs).
    unfold inputsOf at 1.
    destruct (tx_inputs tx) as [ins|] eqn:Hins; simpl.
    + destruct (markSpent_loop ins s0) as [[Hok ->]|[Hbad ->]]; simpl.
      * destruct (IH (list_to_set (omap (spentRef address) ins) ∪ s0))
          as [[Hoks ->]|[Hbads ->]].
        -- left. split.
           ++ constructor; [|done]. exists ins. by split.
           ++ f_equal. set_solver.
        -- right. split; [|done]. intros H. apply Hbads.
           by apply Forall_cons in H as [_ H].
      * right. split; [|done]. intros H. apply Forall_cons in H as [H _].
        destruct H as (ins' & Hins' & H). by simplify_eq.
    + right. split; [|done]. intros H. apply Forall_cons in H as [H _].
      destruct H as (ins' & Hins' & H). by simplify_eq.
Qed.

(** The first pass either throws a [TypeError] or returns the set of all
    marked keys. *)
Lemma firstPass_cases txs :
  (Forall (inputsOk address) txs
   ∧ firstPass address txs = Ok (list_to_set (spentRefs address txs)))
  ∨ (¬ Forall (inputsOk address) txs ∧ firstPass address txs = Err TypeError).
Proof.
  unfold firstPass.
  destruct (firstPass_from txs ∅) as [[Hok ->]|[Hbad ->]]; [left|right]; split;
    try done.
  f_equal. set_solver.
Qed.

(** The second pass throws a [TypeError] on a transaction without [outputs]
    or without [inputs], and on nothing else. *)
Lemma processTransaction_cases spentUtxos t0 tx :
  (is_Some (tx_outputs tx) ∧ is_Some (tx_inputs tx)
   ∧ ∃ t, processTransaction address spentUtxos t0 tx = Ok t)
  ∨ (¬ (is_Some (tx_outputs tx) ∧ is_Some (tx_inputs tx))
     ∧ processTransaction address spentUtxos t0 tx = Err TypeError).
Proof.
  unfold processTransaction.
  destruct (tx_outputs tx) as [outs|]; simpl.
  - destruct (tx_inputs tx) as [ins|]; simpl.
    + left. eauto.
    + right. split; [|done]. intros [_ [? ?]]. done.
  - right. split; [|done]. intros [[? ?] _]. done.
Qed.

Lemma secondPass_from_cases spentUtxos txs : ∀ t0,
  (Forall (λ tx, is_Some (tx_outputs tx) ∧ is_Some (tx_inputs tx)) txs
   ∧ ∃ t, forOf (processTransaction address spentUtxos) t0 txs = Ok t)
  ∨ (¬ Forall (λ tx, is_Some (tx_outputs tx) ∧ is_Some (tx_inputs tx)) txs
     ∧ forOf (processTransaction address spentUtxos) t0 txs = Err TypeError).
Proof.
  induction txs as [|tx txs IH]; intros t0.
  - left. split; [constructor|]. by exists t0.
  - rewrite forOf_cons.
    destruct (processTransaction_cases spentUtxos t0 tx)
      as [(Ho & Hi & t1 & ->)|[Hbad ->]]; simpl.
    + destruct (IH t1) as [[Hok Ht]|[Hbads ->]].
      * left. split; [|done]. by constructor.
      * right. split; [|done]. intros H. apply Hbads.
        by apply Forall_cons in H as [_ H].
    + right. split; [|done]. intros H. apply Hbad.
      by apply Forall_cons in H as [H _].
Qed.
End first_pass.

(** ** Both passes together *)

Lemma wellFormed_split address txs :
  Forall (wellFormed address) txs
  ↔ Forall (inputsOk address) txs
    ∧ Forall (λ tx, is_Some (tx_outputs tx) ∧ is_Some (tx_inputs tx)) txs.
Proof.
  rewrite <-Forall_and. apply Forall_proper; [|done].
  intros tx. unfold wellFormed, inputsOk. split.
  - intros (Ho & ins & Hins & Hok). rewrite Hins. eauto.
  - tauto.
Qed.

(** The reconstruction returns exactly on the well-formed histories, and
    throws a [TypeError] on the others. *)
Lemma classify_cases address txs :
  (Forall (wellFormed address) txs ∧ ∃ t, classify address txs = Ok t)
  ∨ (¬ Forall (wellFormed address) txs ∧ classify address txs = Err TypeError).
Proof.
  unfold classify. rewrite wellFormed_split.
  destruct (firstPass_cases address txs) as [[Hin ->]|[Hbad ->]]; simpl.
  - unfold secondPass.
    destruct (secondPass_from_cases address
                (list_to_set (spentRefs address txs)) txs emptyTally)
      as [[Hok Ht]|[Hbads ->]].
    + left. by split.
    + right. split; [|done]. tauto.
  - right. split; [|done]. tauto.
Qed.

(** The spent set a successful reconstruction works with. *)
Definition spentSet (address : string) (txs : list Transaction) : gset string :=
  list_to_set (spentRefs address txs).

(** The tally of a successful reconstruction, in closed form. *)
Lemma classify_Ok address txs t :
  classify address txs = Ok t →
  utxos t = foldl setEntry [] (writes address (spentSet address txs) txs)
  ∧ incoming t = js_sum (incomingValues address true txs)
  ∧ incomingPending t = js_sum (incomingValues address false txs)
  ∧ outgoing t = js_sum (outgoingValues address true txs)
  ∧ outgoingPending t = js_sum (outgoingValues address false txs).
Proof.
  unfold classify.
  destruct (firstPass_cases address txs) as [[_ ->]|[_ ->]]; simpl; [|done].
  intros H. by apply secondPass_from in H.
Qed.

Lemma analyzeUTXOs_Ok address txs b :
  analyzeUTXOs address txs = Ok b →
  ∃ t, classify address txs = Ok t
    ∧ b = {| bal_incoming := incoming t;
             bal_outgoing := outgoing t;
             bal_incomingPending := incomingPending t;
             bal_outgoingPending := outgoingPending t;
             availableBalance := availableOf (utxos t);
             unspentUTXOs := unspentOf (utxos t) |}.
Proof.
  unfold analyzeUTXOs.
  destruct (classify address txs) as [t|e]; simpl; [|done].
  intros [= <-]. eauto.
Qed.

(** ** The available balance *)

Definition spendable (utxo : UtxoEntry) : Prop :=
  utxo_spent utxo = false ∧ utxo_confirmed utxo = true.

#[global] Instance spendable_dec utxo : Decision (spendable utxo).
Proof. unfold spendable. apply _. Defined.

Lemma availableOf_from (m : UtxoMap) : ∀ acc,
  foldl (λ availableBalance '(key, utxo),
           if negb (utxo_spent utxo) && utxo_confirmed utxo
           then js_add availableBalance (utxo_value utxo)
           else availableBalance) acc m
  = sumFrom acc (utxo_value <$> filter spendable m.*2).
Proof.
  induction m as [|[k e] m IH]; intros acc; simpl; [done|].
  rewrite IH, filter_cons.
  destruct (decide (spendable e)) as [[Hs Hc]|Hn].
  - by rewrite Hs, Hc.
  - assert (negb (utxo_spent e) && utxo_confirmed e = false) as ->; [|done].
    unfold spendable in Hn.
    destruct (utxo_spent e), (utxo_confirmed e); try done.
    exfalso. by apply Hn.
Qed.

Lemma availableOf_sum (m : UtxoMap) :
  availableOf m = js_sum (utxo_value <$> filter spendable m.*2).
Proof. apply availableOf_from. Qed.

(** ** The four running totals *)

(** A transaction whose only effect is to pay [value] to [address]. *)
Definition paying (hash : option string) (blockNumber : option Z)
    (address : string) (value : jsval) : Transaction :=
  {| tx_hash := hash; tx_blockNumber := blockNumber; tx_inputs := Some [];
     tx_outputs := Some [ {| output_address := address; output_value := value |} ] |}.



(** ** Where entries and spent marks come from *)

Lemma elem_of_writesFrom address spentUtxos tx outs k e : ∀ i,
  (k, e) ∈ writesFrom address spentUtxos tx i outs
  ↔ ∃ j o, outs !! j = Some o ∧ output_address o = address
           ∧ (k, e) = entryOf spentUtxos tx (i + j) o.
Proof.
  induction outs as [|o outs IH]; intros i; simpl.
  - split; [by intros ?%elem_of_nil|]. by intros (j & o & ? & _).
  - rewrite elem_of_app, IH. split.
    + intros [H|(j & o' & Hj & Ho & He)].
      * destruct (decide (output_address o = address)) as [Ho|Ho];
          [|by apply elem_of_nil in H].
        apply list_elem_of_singleton in H.
        exists 0%nat, o. by rewrite Nat.add_0_r.
      * exists (S j), o'. by rewrite Nat.add_succ_r.
    + intros ([|j] & o' & Hj & Ho & He); simpl in Hj.
      * injection Hj as ->. left. rewrite decide_True by done.
        rewrite Nat.add_0_r in He. rewrite He. apply list_elem_of_singleton. done.
      * right. exists j, o'. by rewrite Nat.add_succ_r in He.
Qed.

Lemma elem_of_writes address spentUtxos txs k e :
  (k, e) ∈ writes address spentUtxos txs
  ↔ ∃ tx j o, tx ∈ txs ∧ outputsOf tx !! j = Some o
              ∧ output_address o = address
              ∧ (k, e) = entryOf spentUtxos tx j o.
Proof.
  unfold writes. rewrite list_elem_of_bind. unfold writesOf.
  setoid_rewrite elem_of_writesFrom. naive_solver.
Qed.

Lemma elem_of_spentSet address txs k :
  k ∈ spentSet address txs
  ↔ ∃ tx input, tx ∈ txs ∧ input ∈ inputsOf tx
                ∧ spentRef address input = Some k.
Proof.
  unfold spentSet, spentRefs.
  rewrite elem_of_list_to_set, list_elem_of_bind.
  setoid_rewrite list_elem_of_omap. naive_solver.
Qed.

Lemma spentRef_Some address input hash index :
  spentRef address input = Some (utxoKey hash index)
  ↔ ∃ coin, input_coin input = Some coin ∧ coin_address coin = address
      ∧ input_prevout input
        = Some {| prevout_hash := hash; prevout_index := index |}.
Proof.
  unfold spentRef, spendsFrom.
  destruct (input_coin input) as [c|]; simpl; [|naive_solver].
  destruct (decide (coin_address c = address)) as [Hc|Hc]; simpl;
    [|naive_solver].
  destruct (input_prevout input) as [[h i]|]; simpl; [|naive_solver].
  split.
  - intros [= H]. apply utxoKey_inj in H as [-> ->]. eauto.
  - intros (c' & _ & _ & [= -> ->]). done.
Qed.

(** Some input in the history consumes output [index] of transaction [hash]
    as a coin of [address]. *)
Definition consumes (address : string) (txs : list Transaction)
    (hash : string) (index : nat) : Prop :=
  ∃ tx input coin,
    tx ∈ txs ∧ input ∈ inputsOf tx
    ∧ input_coin input = Some coin ∧ coin_address coin = address
    ∧ input_prevout input
      = Some {| prevout_hash := hash; prevout_index := index |}.

Lemma spentSet_consumes address txs hash index :
  utxoKey hash index ∈ spentSet address txs ↔ consumes address txs hash index.
Proof.
  rewrite elem_of_spentSet. unfold consumes.
  setoid_rewrite spentRef_Some. naive_solver.
Qed.

(** Every entry of the map carries the spent mark of its own key. *)
Lemma utxos_spent_mark address txs t k e :
  classify address txs = Ok t → (k, e) ∈ utxos t →
  utxo_spent e = bool_decide (k ∈ spentSet address txs).
Proof.
  intros Ht Hin. apply classify_Ok in Ht as (Hu & _). rewrite Hu in Hin.
  apply elem_of_setEntries in Hin as [Hin|Hin]; [by apply elem_of_nil in Hin|].
  apply elem_of_writes in Hin as (tx & j & o & _ & _ & _ & [= -> ->]). done.
Qed.

Lemma consumes_perm address txs txs' hash index :
  txs' ≡ₚ txs → consumes address txs' hash index ↔ consumes address txs hash index.
Proof.
  intros Hp. unfold consumes. by setoid_rewrite Hp.
Qed.

(** ** One entry per output reference *)

Lemma keysOf_setEntries ws m k :
  k ∈ keysOf (foldl setEntry m ws) ↔ k ∈ keysOf m ∨ k ∈ keysOf ws.
Proof.
  revert m. induction ws as [|[k' e'] ws IH]; intros m; simpl.
  - change (keysOf []) with (@nil string). rewrite elem_of_nil. tauto.
  - rewrite IH. unfold setEntry at 1. simpl. rewrite keysOf_map_set.
    change (keysOf ((k', e') :: ws)) with (k' :: keysOf ws).
    rewrite elem_of_cons. tauto.
Qed.

Lemma elem_of_keysOf k (m : UtxoMap) : k ∈ keysOf m ↔ ∃ e, (k, e) ∈ m.
Proof.
  unfold keysOf. rewrite list_elem_of_fmap. split.
  - intros ([k' e] & -> & H). by exists e.
  - intros [e H]. by exists (k, e).
Qed.

Lemma map_get_is_Some k m : k ∈ keysOf m → is_Some (map_get k m).
Proof.
  unfold keysOf. induction m as [|[k' e'] m IH]; simpl.
  - by intros ?%elem_of_nil.
  - destruct (decide (k' = k)) as [->|Hne]; [eauto|].
    rewrite elem_of_cons. intros [?|?]; [congruence|]. by apply IH.
Qed.

Lemma unspentOf_keys m :
  unspent_utxo <$> unspentOf m
  = keysOf (filter (λ '(key, utxo), negb (utxo_spent utxo) = true) m).
Proof.
  unfold unspentOf, keysOf. rewrite <-list_fmap_compose.
  apply list_fmap_ext. by intros i [k e] _.
Qed.

Lemma utxo_keys_NoDup address txs t :
  classify address txs = Ok t → NoDup (keysOf (utxos t)).
Proof.
  intros Ht. apply classify_Ok in Ht as (-> & _).
  apply setEntries_NoDup. constructor.
Qed.

(** C6.  The UTXO map of a reconstruction holds no key twice; every key in it
    is the key of an output of the history that pays the address, every such
    output has its entry, and the key [hash:index] determines the hash and
    the index, so that different output references have different entries.
    The same holds for the keys listed in [unspentUTXOs]. *)
Theorem utxo_entries_unique address txs t :
  classify address txs = Ok t →
  NoDup (keysOf (utxos t))
  ∧ (∀ k, k ∈ keysOf (utxos t)
          ↔ ∃ tx i o, tx ∈ txs ∧ outputsOf tx !! i = Some o
                      ∧ output_address o = address
                      ∧ k = utxoKey (hashString tx) i)
  ∧ (∀ tx i o, tx ∈ txs → outputsOf tx !! i = Some o →
               output_address o = address →
               ∃ e, map_get (utxoKey (hashString tx) i) (utxos t) = Some e
                    ∧ ∀ e', (utxoKey (hashString tx) i, e') ∈ utxos t → e' = e)
  ∧ (∀ h1 i1 h2 i2, utxoKey h1 i1 = utxoKey h2 i2 → h1 = h2 ∧ i1 = i2)
  ∧ NoDup (unspent_utxo <$> unspentOf (utxos t)).
Proof.
  intros Ht. pose proof (utxo_keys_NoDup _ _ _ Ht) as Hnd.
  apply classify_Ok in Ht as (Hu & _).
  assert (∀ k, k ∈ keysOf (utxos t)
          ↔ ∃ tx i o, tx ∈ txs ∧ outputsOf tx !! i = Some o
                      ∧ output_address o = address
                      ∧ k = utxoKey (hashString tx) i) as Hkeys.
  { intros k. rewrite Hu, keysOf_setEntries, !elem_of_keysOf. split.
    - intros [[e H]|[e H]]; [by apply elem_of_nil in H|].
      apply elem_of_writes in H as (tx & i & o & ? & ? & ? & [= -> ->]).
      by exists tx, i, o.
    - intros (tx & i & o & ? & ? & ? & ->). right.
      exists (entryOf (spentSet address txs) tx i o).2.
      apply elem_of_writes. by exists tx, i, o. }
  split_and!; [done|done| |apply utxoKey_inj|].
  - intros tx i o Htx Ho Ha.
    destruct (map_get_is_Some (utxoKey (hashString tx) i) (utxos t)) as [e He].
    { apply Hkeys. by exists tx, i, o. }
    exists e. split; [done|]. intros e' He'.
    apply (map_get_elem_of _ _ _ Hnd) in He'. congruence.
  - rewrite unspentOf_keys. unfold keysOf.
    eapply sublist_NoDup; [exact Hnd|].
    unfold keysOf. apply fmap_sublist, sublist_filter.
Qed.

Lemma utxo_entries_unique_witness :
  NoDup (keysOf [("X:0", mkUtxoEntry (JNum 5000) true true)]).
Proof.
  refine (proj1 (utxo_entries_unique "me" [tx_X; tx_Y]
            {| utxos := [("X:0", mkUtxoEntry (JNum 5000) true true)];
               incoming := JNum 5000; outgoing := JNum 0;
               incomingPending := JNum 0; outgoingPending := JNum 5000 |} _)).
  vm_compute. reflexivity.
Defined.

(** ** Independence of the order of the history *)

(** No key is written with two different entries. *)
Definition consistent (ws : list (string * UtxoEntry)) : Prop :=
  ∀ k e1 e2, (k, e1) ∈ ws → (k, e2) ∈ ws → e1 = e2.

Lemma setEntries_snoc m ws w :
  foldl setEntry m (ws ++ [w]) = setEntry (foldl setEntry m ws) w.
Proof. by rewrite foldl_app. Qed.

Lemma setEntries_get m ws k e :
  consistent ws → (k, e) ∈ ws → map_get k (foldl setEntry m ws) = Some e.
Proof.
  induction ws as [|[k' e'] ws IH] using rev_ind; intros Hc Hin.
  - by apply elem_of_nil in Hin.
  - rewrite setEntries_snoc. unfold setEntry at 1. simpl.
    destruct (decide (k' = k)) as [->|Hne].
    + rewrite map_get_set_eq. f_equal.
      apply (Hc k); [|done]. apply elem_of_app. right. left.
    + rewrite map_get_set_ne by done. apply IH.
      * intros k0 e1 e2 H1 H2. apply (Hc k0); apply elem_of_app; by left.
      * apply elem_of_app in Hin as [Hin|Hin]; [done|].
        apply list_elem_of_singleton in Hin. congruence.
Qed.

Lemma setEntries_get_None m ws k :
  k ∉ keysOf ws → map_get k (foldl setEntry m ws) = map_get k m.
Proof.
  revert m. induction ws as [|[k' e'] ws IH]; intros m Hk; simpl; [done|].
  change (keysOf ((k', e') :: ws)) with (k' :: keysOf ws) in Hk.
  apply not_elem_of_cons in Hk as [Hne Hk].
  rewrite IH by done. unfold setEntry. simpl. by apply map_get_set_ne.
Qed.

(** Records with the same hash are the same record. *)
Definition sameHashSameRecord (txs : list Transaction) : Prop :=
  ∀ tx1 tx2, tx1 ∈ txs → tx2 ∈ txs → hashString tx1 = hashString tx2 → tx1 = tx2.

Lemma writes_consistent address spentUtxos txs :
  sameHashSameRecord txs → consistent (writes address spentUtxos txs).
Proof.
  intros Hsame k e1 e2 H1 H2.
  apply elem_of_writes in H1 as (tx1 & i1 & o1 & Htx1 & Ho1 & _ & [= Hk1 ->]).
  apply elem_of_writes in H2 as (tx2 & i2 & o2 & Htx2 & Ho2 & _ & [= Hk2 ->]).
  rewrite Hk1 in Hk2. apply utxoKey_inj in Hk2 as [Hh ->].
  apply Hsame in Hh; [|done..]. subst tx2.
  rewrite Ho1 in Ho2. by injection Ho2 as ->.
Qed.

Lemma sameHashSameRecord_perm txs txs' :
  txs' ≡ₚ txs → sameHashSameRecord txs → sameHashSameRecord txs'.
Proof.
  intros Hp Hsame tx1 tx2 H1 H2. rewrite Hp in H1, H2. by apply Hsame.
Qed.

Lemma spentSet_perm address txs txs' :
  txs' ≡ₚ txs → spentSet address txs' = spentSet address txs.
Proof.
  intros Hp. apply set_eq. intros k. rewrite !elem_of_spentSet.
  by setoid_rewrite Hp.
Qed.

Lemma writes_perm address spentUtxos txs txs' :
  txs' ≡ₚ txs → writes address spentUtxos txs' ≡ₚ writes address spentUtxos txs.
Proof. intros Hp. unfold writes. by rewrite Hp. Qed.

Lemma incomingValues_perm address c txs txs' :
  txs' ≡ₚ txs →
  js_sum (incomingValues address c txs') = js_sum (incomingValues address c txs).
Proof.
  intros Hp. apply sumFrom_perm. unfold incomingValues, withState. by rewrite Hp.
Qed.

Lemma outgoingValues_perm address c txs txs' :
  txs' ≡ₚ txs →
  js_sum (outgoingValues address c txs') = js_sum (outgoingValues address c txs).
Proof.
  intros Hp. apply sumFrom_perm. unfold outgoingValues, withState. by rewrite Hp.
Qed.

Lemma classify_perm_Ok address txs txs' t :
  txs' ≡ₚ txs → classify address txs = Ok t → ∃ t', classify address txs' = Ok t'.
Proof.
  intros Hp Ht.
  destruct (classify_cases address txs) as [[Hwf _]|[_ Herr]]; [|congruence].
  destruct (classify_cases address txs') as [[_ Hok]|[Hbad _]]; [done|].
  exfalso. apply Hbad. by rewrite Hp.
Qed.

Lemma utxoMap_ext_perm (m m' : UtxoMap) :
  NoDup (keysOf m) → NoDup (keysOf m') →
  (∀ k, map_get k m' = map_get k m) → m' ≡ₚ m.
Proof.
  intros Hm Hm' Hget.
  apply NoDup_Permutation.
  - by eapply NoDup_fmap_1.
  - by eapply NoDup_fmap_1.
  - intros [k e]. split; intros Hin.
    + apply map_get_Some. rewrite <-Hget. by apply map_get_elem_of.
    + apply map_get_Some. rewrite Hget. by apply map_get_elem_of.
Qed.

(** The map of a reconstruction is the same, key by key, for every order of
    a history in which records with the same hash are the same record. *)
Lemma classify_perm_get address txs txs' t t' :
  sameHashSameRecord txs → txs' ≡ₚ txs →
  classify address txs = Ok t → classify address txs' = Ok t' →
  ∀ k, map_get k (utxos t') = map_get k (utxos t).
Proof.
  intros Hsame Hp Ht Ht' k.
  apply classify_Ok in Ht as (-> & _). apply classify_Ok in Ht' as (-> & _).
  rewrite (spentSet_perm _ _ _ Hp).
  set (S := spentSet address txs).
  destruct (decide (k ∈ keysOf (writes address S txs))) as [Hin|Hnin].
  - apply elem_of_keysOf in Hin as [e He].
    rewrite (setEntries_get _ (writes address S txs) k e);
      [|by apply writes_consistent|done].
    apply setEntries_get.
    + apply writes_consistent. by eapply sameHashSameRecord_perm.
    + by rewrite (writes_perm _ _ _ _ Hp).
  - rewrite (setEntries_get_None _ (writes address S txs)) by done.
    apply setEntries_get_None.
    intros Hin. apply Hnin. rewrite elem_of_keysOf in Hin |- *.
    destruct Hin as [e He]. exists e. by rewrite <-(writes_perm _ _ _ _ Hp).
Qed.

(** The same transaction reported twice, once while pending and once with
    its block number. *)
Definition tx_seen_pending : Transaction := paying (Some "X") None "me" (JNum 1000).
Definition tx_seen_confirmed : Transaction := paying (Some "X") (Some 100) "me" (JNum 1000).

(** Two orders of one history with different classifications: the record
    processed last decides the entry of ["X:0"]. *)
Lemma reconstruction_order_dependent :
  [tx_seen_confirmed; tx_seen_pending] ≡ₚ [tx_seen_pending; tx_seen_confirmed]
  ∧ analyzeUTXOs "me" [tx_seen_pending; tx_seen_confirmed]
    = Ok {| bal_incoming := JNum 1000; bal_outgoing := JNum 0;
            bal_incomingPending := JNum 1000; bal_outgoingPending := JNum 0;
            availableBalance := JNum 1000;
            unspentUTXOs := [mkUnspent "X:0" (JNum 1000) true] |}
  ∧ analyzeUTXOs "me" [tx_seen_confirmed; tx_seen_pending]
    = Ok {| bal_incoming := JNum 1000; bal_outgoing := JNum 0;
            bal_incomingPending := JNum 1000; bal_outgoingPending := JNum 0;
            availableBalance := JNum 0;
            unspentUTXOs := [mkUnspent "X:0" (JNum 1000) false] |}
  ∧ ¬ (∀ address txs txs' b b',
         txs' ≡ₚ txs →
         analyzeUTXOs address txs = Ok b → analyzeUTXOs address txs' = Ok b' →
         availableBalance b' = availableBalance b
         ∧ unspentUTXOs b' ≡ₚ unspentUTXOs b).
Proof.
  split_and!.
  - apply perm_swap.
  - vm_compute. reflexivity.
  - vm_compute. reflexivity.
  - intros H.
    destruct (H "me" [tx_seen_pending; tx_seen_confirmed]
                [tx_seen_confirmed; tx_seen_pending]
                {| bal_incoming := JNum 1000; bal_outgoing := JNum 0;
                   bal_incomingPending := JNum 1000; bal_outgoingPending := JNum 0;
                   availableBalance := JNum 1000;
                   unspentUTXOs := [mkUnspent "X:0" (JNum 1000) true] |}
                {| bal_incoming := JNum 1000; bal_outgoing := JNum 0;
                   bal_incomingPending := JNum 1000; bal_outgoingPending := JNum 0;
                   availableBalance := JNum 0;
                   unspentUTXOs := [mkUnspent "X:0" (JNum 1000) false] |})
      as [Hav _].
    + apply perm_swap.
    + vm_compute. reflexivity.
    + vm_compute. reflexivity.
    + discriminate Hav.
Qed.

(** C5, amended.  For a history in which records with the same hash are the
    same record, every permutation reconstructs as well and gives the same
    UTXO set (the same entry under every key, hence the same entries up to
    their order in the map) and the same totals, the same available balance
    and the same unspent entries up to their order. *)
Theorem reconstruction_order_independent address txs txs' b :
  sameHashSameRecord txs → txs' ≡ₚ txs →
  analyzeUTXOs address txs = Ok b →
  ∃ t t' b',
    classify address txs = Ok t ∧ classify address txs' = Ok t'
    ∧ analyzeUTXOs address txs' = Ok b'
    ∧ (∀ k, map_get k (utxos t') = map_get k (utxos t))
    ∧ utxos t' ≡ₚ utxos t
    ∧ bal_incoming b' = bal_incoming b
    ∧ bal_incomingPending b' = bal_incomingPending b
    ∧ bal_outgoing b' = bal_outgoing b
    ∧ bal_outgoingPending b' = bal_outgoingPending b
    ∧ availableBalance b' = availableBalance b
    ∧ unspentUTXOs b' ≡ₚ unspentUTXOs b.
Proof.
  intros Hsame Hp Hb.
  apply analyzeUTXOs_Ok in Hb as (t & Ht & ->).
  destruct (classify_perm_Ok _ _ _ _ Hp Ht) as [t' Ht'].
  pose proof (classify_perm_get _ _ _ _ _ Hsame Hp Ht Ht') as Hget.
  assert (utxos t' ≡ₚ utxos t) as Hperm.
  { apply utxoMap_ext_perm; [|by eapply utxo_keys_NoDup|done].
    by eapply utxo_keys_NoDup. }
  exists t, t'. eexists. unfold analyzeUTXOs at 1. rewrite Ht'. simpl.
  split_and!; try done.
  - apply classify_Ok in Ht as (_ & -> & _). apply classify_Ok in Ht' as (_ & -> & _).
    by apply incomingValues_perm.
  - apply classify_Ok in Ht as (_ & _ & -> & _).
    apply classify_Ok in Ht' as (_ & _ & -> & _).
    by apply incomingValues_perm.
  - apply classify_Ok in Ht as (_ & _ & _ & -> & _).
    apply classify_Ok in Ht' as (_ & _ & _ & -> & _).
    by apply outgoingValues_perm.
  - apply classify_Ok in Ht as (_ & _ & _ & _ & ->).
    apply classify_Ok in Ht' as (_ & _ & _ & _ & ->).
    by apply outgoingValues_perm.
  - simpl. rewrite !availableOf_sum. apply sumFrom_perm. by rewrite Hperm.
  - simpl. unfold unspentOf. by rewrite Hperm.
Qed.

Lemma reconstruction_order_independent_witness :
  ∃ b', analyzeUTXOs "me" [tx_Y; tx_X] = Ok b' ∧ availableBalance b' = JNum 0.
Proof.
  destruct (reconstruction_order_independent "me" [tx_X; tx_Y] [tx_Y; tx_X]
              {| bal_incoming := JNum 5000; bal_outgoing := JNum 0;
                 bal_incomingPending := JNum 0; bal_outgoingPending := JNum 5000;
                 availableBalance := JNum 0; unspentUTXOs := [] |})
    as (t & t' & b' & _ & _ & Hb' & _ & _ & _ & _ & _ & _ & Hav & _).
  - intros tx1 tx2 H1 H2 Hh.
    apply elem_of_cons in H1 as [->|H1]; [|apply list_elem_of_singleton in H1 as ->];
      (apply elem_of_cons in H2 as [->|H2]; [|apply list_elem_of_singleton in H2 as ->]);
      first [reflexivity | discriminate Hh].
  - apply perm_swap.
  - vm_compute. reflexivity.
  - exists b'. split; [exact Hb' | exact Hav].
Defined.

(** ** Records with missing fields *)

Lemma analyzeUTXOs_cases address txs :
  (Forall (wellFormed address) txs ∧ ∃ b, analyzeUTXOs address txs = Ok b)
  ∨ (¬ Forall (wellFormed address) txs ∧ analyzeUTXOs address txs = Err TypeError).
Proof.
  unfold analyzeUTXOs.
  destruct (classify_cases address txs) as [[Hwf [t ->]]|[Hbad ->]]; simpl.
  - left. eauto.
  - by right.
Qed.

(** A transaction paying [address] and nothing else, reconstructed alone. *)
Lemma analyzeUTXOs_paying address hash blockNumber value :
  analyzeUTXOs address [paying hash blockNumber address value]
  = Ok {| bal_incoming :=
            if blockNumber is Some _ then js_add (JNum 0) value else JNum 0;
          bal_outgoing := JNum 0;
          bal_incomingPending :=
            if blockNumber is Some _ then JNum 0 else js_add (JNum 0) value;
          bal_outgoingPending := JNum 0;
          availableBalance :=
            if blockNumber is Some _ then js_add (JNum 0) value else JNum 0;
          unspentUTXOs :=
            [ {| unspent_utxo := utxoKey (default "undefined" hash) 0;
                 unspent_value := value;
                 unspent_confirmed := if blockNumber is Some _ then true else false |} ] |}.
Proof.
  unfold analyzeUTXOs, classify, firstPass, secondPass, processTransaction.
  simpl. unfold processOutput. simpl.
  rewrite decide_True by done.
  rewrite bool_decide_eq_false_2 by apply not_elem_of_empty.
  unfold isConfirmed, hashString. simpl.
  destruct blockNumber, hash; reflexivity.
Qed.

(** The record of [tx] with its hash and the values of its outputs removed. *)
Definition blank (tx : Transaction) : Transaction :=
  {| tx_hash := None;
     tx_blockNumber := tx_blockNumber tx;
     tx_inputs := tx_inputs tx;
     tx_outputs :=
       fmap (M:=list) (λ o, {| output_address := output_address o;
                     output_value := JUndefined |}) <$> tx_outputs tx |}.

Lemma wellFormed_blank address tx :
  wellFormed address (blank tx) ↔ wellFormed address tx.
Proof.
  unfold wellFormed, inputsOk, blank. simpl. by rewrite fmap_is_Some.
Qed.

(** A record with neither a hash nor a value in its output is reconstructed
    without any error: the output is keyed under ["undefined:0"] and the sums
    it enters are [NaN]. *)
Lemma malformed_record_accepted :
  analyzeUTXOs "me" [paying None (Some 7) "me" JUndefined]
  = Ok {| bal_incoming := JNaN; bal_outgoing := JNum 0;
          bal_incomingPending := JNum 0; bal_outgoingPending := JNum 0;
          availableBalance := JNaN;
          unspentUTXOs := [mkUnspent "undefined:0" JUndefined true] |}
  ∧ tx_hash (paying None (Some 7) "me" JUndefined) = None
  ∧ output_value <$> outputsOf (paying None (Some 7) "me" JUndefined)
    = [JUndefined].
Proof. split_and!; vm_compute; reflexivity. Qed.

(** C8, amended.  A record without [inputs] or without [outputs] makes the
    whole reconstruction throw a [TypeError], so that no snapshot is
    returned.  A missing [hash] or a missing output [value] is no error:
    whether a history reconstructs does not depend on the hashes and output
    values in it, and a record lacking both yields a snapshot with the output
    keyed under the hash ["undefined"], its value [undefined], and [NaN] for
    the sums the value enters. *)
Theorem malformed_records address txs :
  (∀ tx, tx ∈ txs → tx_inputs tx = None ∨ tx_outputs tx = None →
         analyzeUTXOs address txs = Err TypeError)
  ∧ ((∃ b, analyzeUTXOs address txs = Ok b)
     ↔ ∃ b', analyzeUTXOs address (blank <$> txs) = Ok b')
  ∧ (∀ blockNumber : Z,
       analyzeUTXOs address [paying None (Some blockNumber) address JUndefined]
       = Ok {| bal_incoming := JNaN; bal_outgoing := JNum 0;
               bal_incomingPending := JNum 0; bal_outgoingPending := JNum 0;
               availableBalance := JNaN;
               unspentUTXOs := [mkUnspent "undefined:0" JUndefined true] |}).
Proof.
  split_and!.
  - intros tx Htx Hmiss.
    destruct (analyzeUTXOs_cases address txs) as [[Hwf _]|[_ Herr]]; [|done].
    rewrite Forall_forall in Hwf. destruct (Hwf tx Htx) as ([outs Ho] & ins & Hi & _).
    destruct Hmiss; congruence.
  - assert (Forall (wellFormed address) (blank <$> txs)
            ↔ Forall (wellFormed address) txs) as Hwf.
    { rewrite Forall_fmap. apply Forall_proper; [|done].
      intros tx. apply wellFormed_blank. }
    destruct (analyzeUTXOs_cases address txs) as [[H1 E1]|[H1 E1]];
      destruct (analyzeUTXOs_cases address (blank <$> txs)) as [[H2 E2]|[H2 E2]];
      try tauto.
    rewrite E1, E2. split; intros [? ?]; done.
  - intros blockNumber. apply analyzeUTXOs_paying.
Qed.

Lemma malformed_records_witness :
  analyzeUTXOs "me"
    [tx_X; {| tx_hash := Some "Z"; tx_blockNumber := None;
              tx_inputs := None; tx_outputs := Some [] |}]
  = Err TypeError.
Proof.
  refine (proj1 (malformed_records "me" _)
            {| tx_hash := Some "Z"; tx_blockNumber := None;
               tx_inputs := None; tx_outputs := Some [] |} _ _).
  - apply elem_of_cons. right. apply list_elem_of_singleton. reflexivity.
  - left. reflexivity.
Defined.

(** ** Inputs without a coin *)

(** The record of [tx] without the inputs that have no [coin]. *)
Definition withoutCoinless (tx : Transaction) : Transaction :=
  {| tx_hash := tx_hash tx;
     tx_blockNumber := tx_blockNumber tx;
     tx_inputs := filter (λ input, is_Some (input_coin input)) <$> tx_inputs tx;
     tx_outputs := tx_outputs tx |}.

Lemma forOf_ext {S A : Type} (f g : S → A → result S) s l :
  (∀ s x, f s x = g s x) → forOf f s l = forOf g s l.
Proof.
  intros Hfg. revert s. induction l as [|x l IH]; intros s; simpl; [done|].
  rewrite Hfg. destruct (g s x); simpl; [apply IH|done].
Qed.

Lemma forOf_fmap {S A B : Type} (h : A → B) (f : S → B → result S) s l :
  forOf f s (h <$> l) = forOf (λ s x, f s (h x)) s l.
Proof.
  revert s. induction l as [|x l IH]; intros s; simpl; [done|].
  destruct (f s (h x)); simpl; [apply IH|done].
Qed.

Lemma spendsFrom_coinless address input :
  input_coin input = None → spendsFrom address input = None.
Proof. unfold spendsFrom. by intros ->. Qed.

Lemma markSpent_coinless address s input :
  input_coin input = None → markSpent address s input = Ok s.
Proof. intros H. unfold markSpent. by rewrite spendsFrom_coinless. Qed.

Lemma processInput_coinless address tx t input :
  input_coin input = None → processInput address tx t input = t.
Proof. intros H. unfold processInput. by rewrite spendsFrom_coinless. Qed.

Lemma coinless_dec input : {is_Some (input_coin input)} + {input_coin input = None}.
Proof. destruct (input_coin input); [left; eauto|by right]. Qed.

Lemma markSpent_withoutCoinless address ins : ∀ s,
  forOf (markSpent address) s
    (filter (λ input, is_Some (input_coin input)) ins)
  = forOf (markSpent address) s ins.
Proof.
  induction ins as [|input ins IH]; intros s; [done|].
  rewrite filter_cons. destruct (coinless_dec input) as [Hc|Hc].
  - rewrite decide_True by done. simpl.
    destruct (markSpent address s input); simpl; [apply IH|done].
  - rewrite decide_False by (rewrite Hc; by intros [? ?]).
    rewrite forOf_cons, markSpent_coinless by done. simpl. apply IH.
Qed.

Lemma processInput_withoutCoinless address tx ins : ∀ t,
  foldl (processInput address (withoutCoinless tx)) t
    (filter (λ input, is_Some (input_coin input)) ins)
  = foldl (processInput address tx) t ins.
Proof.
  induction ins as [|input ins IH]; intros t; [done|].
  rewrite filter_cons. destruct (coinless_dec input) as [Hc|Hc].
  - rewrite decide_True by done. simpl. rewrite IH. done.
  - rewrite decide_False by (rewrite Hc; by intros [? ?]).
    simpl. rewrite processInput_coinless by done. apply IH.
Qed.

Lemma processOutputs_withoutCoinless address spentUtxos tx outs : ∀ i t,
  processOutputs address spentUtxos (withoutCoinless tx) i outs t
  = processOutputs address spentUtxos tx i outs t.
Proof.
  induction outs as [|o outs IH]; intros i t; simpl; [done|]. by rewrite IH.
Qed.

Lemma processTransaction_withoutCoinless address spentUtxos t tx :
  processTransaction address spentUtxos t (withoutCoinless tx)
  = processTransaction address spentUtxos t tx.
Proof.
  unfold processTransaction. simpl.
  destruct (tx_outputs tx) as [outs|]; simpl; [|done].
  destruct (tx_inputs tx) as [ins|]; simpl; [|done].
  by rewrite processOutputs_withoutCoinless, processInput_withoutCoinless.
Qed.

Lemma classify_withoutCoinless address txs :
  classify address (withoutCoinless <$> txs) = classify address txs.
Proof.
  unfold classify.
  assert (firstPass address (withoutCoinless <$> txs) = firstPass address txs)
    as ->.
  { unfold firstPass. rewrite forOf_fmap. apply forOf_ext. intros s tx. simpl.
    destruct (tx_inputs tx) as [ins|]; simpl; [|done].
    apply markSpent_withoutCoinless. }
  destruct (firstPass address txs) as [s|e]; simpl; [|done].
  unfold secondPass. rewrite forOf_fmap. apply forOf_ext. intros t tx.
  apply processTransaction_withoutCoinless.
Qed.

(** C9.  The reconstruction returns a snapshot exactly when every record has
    [inputs] and [outputs] and every input with a coin of the tracked address
    has a [prevout]; such an input without [prevout] makes it throw.  The
    keys the first pass marks are the [prevout] references of these inputs.
    Inputs without a coin have no effect at all: the result is the one of the
    history with these inputs deleted. *)
Theorem prevout_precondition address txs :
  ((∃ b, analyzeUTXOs address txs = Ok b) ↔ Forall (wellFormed address) txs)
  ∧ (∀ tx input,
       tx ∈ txs → input ∈ inputsOf tx →
       is_Some (spendsFrom address input) → input_prevout input = None →
       analyzeUTXOs address txs = Err TypeError)
  ∧ (∀ s, firstPass address txs = Ok s →
       ∀ k, k ∈ s ↔ ∃ tx input p,
                      tx ∈ txs ∧ input ∈ inputsOf tx
                      ∧ is_Some (spendsFrom address input)
                      ∧ input_prevout input = Some p
                      ∧ k = utxoKey (prevout_hash p) (prevout_index p))
  ∧ analyzeUTXOs address (withoutCoinless <$> txs) = analyzeUTXOs address txs.
Proof.
  split_and!.
  - destruct (analyzeUTXOs_cases address txs) as [[Hwf Hok]|[Hbad Herr]];
      [tauto|].
    rewrite Herr. split; [by intros [? ?]|tauto].
  - intros tx input Htx Hin Hcoin Hprev.
    destruct (analyzeUTXOs_cases address txs) as [[Hwf _]|[_ Herr]]; [|done].
    rewrite Forall_forall in Hwf.
    destruct (Hwf tx Htx) as (_ & ins & Hins & Hok).
    unfold inputsOf in Hin. rewrite Hins in Hin. simpl in Hin.
    rewrite Forall_forall in Hok. apply Hok in Hin.
    apply Hin in Hcoin. rewrite Hprev in Hcoin. by destruct Hcoin.
  - intros s Hs k.
    destruct (firstPass_cases address txs) as [[_ Hok]|[_ Herr]]; [|congruence].
    rewrite Hs in Hok. injection Hok as ->.
    fold (spentSet address txs). rewrite elem_of_spentSet. unfold spentRef.
    split.
    + intros (tx & input & Htx & Hin & Href).
      destruct (spendsFrom address input) as [c|] eqn:Hc; simpl in Href; [|done].
      destruct (input_prevout input) as [p|] eqn:Hp; simpl in Href; [|done].
      injection Href as <-. exists tx, input, p. rewrite Hc. eauto 10.
    + intros (tx & input & p & Htx & Hin & [c Hc] & Hp & ->).
      exists tx, input. rewrite Hc, Hp. done.
  - unfold analyzeUTXOs. by rewrite classify_withoutCoinless.
Qed.

Lemma prevout_precondition_witness :
  analyzeUTXOs "me"
    [ {| tx_hash := Some "Y"; tx_blockNumber := None;
         tx_inputs := Some [ {| input_coin := Some (mkCoin "me" (JNum 5000));
                                input_prevout := None |} ];
         tx_outputs := Some [] |} ]
  = Err TypeError.
Proof.
  refine (proj1 (proj2 (prevout_precondition "me" _))
            {| tx_hash := Some "Y"; tx_blockNumber := None;
               tx_inputs := Some [ {| input_coin := Some (mkCoin "me" (JNum 5000));
                                      input_prevout := None |} ];
               tx_outputs := Some [] |}
            {| input_coin := Some (mkCoin "me" (JNum 5000)); input_prevout := None |}
            _ _ _ _).
  - apply list_elem_of_singleton. reflexivity.
  - apply list_elem_of_singleton. reflexivity.
  - exists (mkCoin "me" (JNum 5000)). reflexivity.
  - reflexivity.
Defined.


(** * The rest of the wallet flow *)

(** ** getBitcoinBalance (getUTXos.js, lines 147-184) *)

(** [const pageSize = 50] *)
Definition pageSize : nat := 50.

(** The pagination loop (lines 152-172).  [fetch offset] is what
    [await fetchTransactions(address, pageSize, offset)] yields: the parsed
    page, or the rejection of the promise.  The offsets requested in one run
    are all different, so a function of the offset stands for any server.
    The [while] loop is bounded by [fuel], one unit per request; [None] means
    that the fuel ran out before the loop ended. *)
Fixpoint fetchAll (fuel : nat) (fetch : nat → result (list Transaction))
    (offset : nat) (allTransactions : list Transaction)
  : option (result (list Transaction)) :=
  match fuel with
  | O => None
  | S fuel' =>
      match fetch offset with
      | Err e => Some (Err e)
      | Ok transactions =>
          if decide (length transactions = 0%nat) then Some (Ok allTransactions)
          else
            let allTransactions' := allTransactions ++ transactions in
            let offset' := (offset + pageSize)%nat in
            if decide (length transactions < pageSize)%nat
            then Some (Ok allTransactions')
            else fetchAll fuel' fetch offset' allTransactions'
      end
  end.

(** Lines 148-183: the [catch] logs the error and throws it again. *)
Definition getBitcoinBalance (fuel : nat) (fetch : nat → result (list Transaction))
    (address : string) : option (result Balance) :=
  match fetchAll fuel fetch 0 [] with
  | None => None
  | Some (Err e) => Some (Err e)
  | Some (Ok allTransactions) => Some (analyzeUTXOs address allTransactions)
  end.

(** ** getAmountToSend (sendBTC.js, lines 121-160) *)

(** What the loop makes of one answer of the user: the word [cancel], or a
    text that [parseFloat] reads as [amountBTC].  [positive] is the outcome of
    [!(isNaN(amountBTC) || amountBTC <= 0)] and [amountSatoshis] the value of
    [Math.round(amountBTC * 100000000)]; both are floating-point computations
    and are taken as given.  The function returns [amountBTC], from which
    [sendTransaction] computes the same [amountSatoshis] again (line 175), so
    the model returns that. *)
Inductive reply : Type :=
  | ReplyCancel
  | ReplyAmount (positive : bool) (amountSatoshis : Z).

(** The [while (true)] loop over the successive answers; [None] when the
    answers given so far were all rejected and the prompt is still open,
    [Some None] for the [null] of a cancellation. *)
Fixpoint getAmountToSend (availableBalance feeInSatoshis : jsval)
    (replies : list reply) : option (option Z) :=
  let maxSendable := calculateMaxSendable availableBalance feeInSatoshis in
  match replies with
  | [] => None
  | ReplyCancel :: _ => Some None
  | ReplyAmount positive amountSatoshis :: rest =>
      if negb positive then getAmountToSend availableBalance feeInSatoshis rest
      else if js_gt (JNum amountSatoshis) maxSendable
      then getAmountToSend availableBalance feeInSatoshis rest
      else if js_lt (JNum amountSatoshis) (JNum 546)
      then getAmountToSend availableBalance feeInSatoshis rest
      else Some (Some amountSatoshis)
  end.

(** ** The checks of main before the prompt (sendBTC.js, lines 336-369) *)

(** [a === b] and [a <= b] on numbers. *)
Definition js_strict_eq (a b : jsval) : bool :=
  match a, b with
  | JNum x, JNum y => bool_decide (x = y)
  | JUndefined, JUndefined => true
  | _, _ => false
  end.

Definition js_le (a b : jsval) : bool :=
  match a, b with
  | JNum x, JNum y => bool_decide (x <= y)
  | _, _ => false
  end.

(** [const feeInSatoshis = 1000] *)
Definition feeInSatoshis : jsval := JNum 1000.

Inductive mainStep : Type :=
  | NoFunds            (* line 338: Wallet has no funds to send *)
  | Declined           (* line 349: Transaction cancelled *)
  | BalanceTooLow      (* line 362: Insufficient balance to send *)
  | AskAmount          (* line 369: getAmountToSend is called *).

(** [wantsToSend] is the outcome of the question of line 346. *)
Definition mainChecks (availableBalance : jsval) (wantsToSend : bool) : mainStep :=
  if js_strict_eq availableBalance (JNum 0) then NoFunds
  else if negb wantsToSend then Declined
  else if js_le availableBalance (js_add feeInSatoshis (JNum 546)) then BalanceTooLow
  else AskAmount.

(** ** Pagination *)

(** A run over full pages [pages], requested from [offset] on. *)
Definition fullPages (fetch : nat → result (list Transaction)) (offset : nat)
    (pages : list (list Transaction)) : Prop :=
  ∀ i page, pages !! i = Some page →
    fetch (offset + i * pageSize)%nat = Ok page ∧ (pageSize ≤ length page)%nat.

Lemma fullPages_tail fetch offset page pages :
  fullPages fetch offset (page :: pages) →
  fullPages fetch (offset + pageSize) pages.
Proof.
  intros H i p Hp. destruct (H (S i) p Hp) as [Hf Hl]. split; [|done].
  rewrite <-Hf. f_equal. lia.
Qed.

Lemma fullPages_head fetch offset page pages :
  fullPages fetch offset (page :: pages) →
  fetch offset = Ok page ∧ (pageSize ≤ length page)%nat.
Proof.
  intros H. destruct (H 0%nat page eq_refl) as [Hf Hl]. split; [|done].
  rewrite <-Hf. f_equal. lia.
Qed.

(** After full pages the loop goes on; the first short page ends it. *)
Lemma fetchAll_pages fetch pages : ∀ fuel offset acc last,
  fullPages fetch offset pages →
  fetch (offset + length pages * pageSize)%nat = Ok last →
  (length last < pageSize)%nat →
  (length pages < fuel)%nat →
  fetchAll fuel fetch offset acc = Some (Ok (acc ++ concat pages ++ last)).
Proof.
  induction pages as [|page pages IH]; intros fuel offset acc last Hfull Hlast Hshort Hfuel.
  - destruct fuel as [|fuel]; [simpl in Hfuel; lia|].
    simpl in *. rewrite Nat.add_0_r in Hlast. rewrite Hlast.
    destruct (decide (length last = 0%nat)) as [H0|H0].
    + apply length_zero_iff_nil in H0 as ->. by rewrite app_nil_r.
    + by rewrite decide_True.
  - destruct fuel as [|fuel]; [simpl in Hfuel; lia|].
    destruct (fullPages_head _ _ _ _ Hfull) as [Hf Hl].
    simpl fetchAll. rewrite Hf.
    unfold pageSize in Hl.
    rewrite decide_False by lia.
    rewrite decide_False by (unfold pageSize; lia).
    rewrite (IH fuel _ _ last).
    + simpl. by rewrite <-!app_assoc.
    + by eapply fullPages_tail.
    + rewrite <-Hlast. f_equal. unfold pageSize. simpl length. lia.
    + done.
    + simpl in Hfuel. lia.
Qed.

(** After full pages a rejected request ends the loop with its error. *)
Lemma fetchAll_error fetch pages : ∀ fuel offset acc e,
  fullPages fetch offset pages →
  fetch (offset + length pages * pageSize)%nat = Err e →
  (length pages < fuel)%nat →
  fetchAll fuel fetch offset acc = Some (Err e).
Proof.
  induction pages as [|page pages IH]; intros fuel offset acc e Hfull Herr Hfuel.
  - destruct fuel as [|fuel]; [simpl in Hfuel; lia|].
    simpl in *. rewrite Nat.add_0_r in Herr. by rewrite Herr.
  - destruct fuel as [|fuel]; [simpl in Hfuel; lia|].
    destruct (fullPages_head _ _ _ _ Hfull) as [Hf Hl].
    simpl fetchAll. rewrite Hf.
    unfold pageSize in Hl.
    rewrite decide_False by lia.
    rewrite decide_False by (unfold pageSize; lia).
    apply IH.
    + by eapply fullPages_tail.
    + rewrite <-Herr. f_equal. unfold pageSize. simpl length. lia.
    + simpl in Hfuel. lia.
Qed.

(** X1.  When the requests at offsets 0, 50, 100, ... return pages of at
    least 50 records until one returns fewer (possibly none), the balance is
    the analysis of all these pages in order; what the source would return at
    any later offset does not matter, it is never requested. *)
Theorem getBitcoinBalance_pages fetch address pages last fuel :
  fullPages fetch 0 pages →
  fetch (length pages * pageSize)%nat = Ok last →
  (length last < pageSize)%nat →
  (length pages < fuel)%nat →
  getBitcoinBalance fuel fetch address
  = Some (analyzeUTXOs address (concat pages ++ last))
  ∧ ∀ fetch',
      (∀ offset, (offset ≤ length pages * pageSize)%nat → fetch' offset = fetch offset) →
      getBitcoinBalance fuel fetch' address = getBitcoinBalance fuel fetch address.
Proof.
  intros Hfull Hlast Hshort Hfuel.
  assert (∀ f, fullPages f 0 pages → f (length pages * pageSize)%nat = Ok last →
            getBitcoinBalance fuel f address
            = Some (analyzeUTXOs address (concat pages ++ last))) as Hrun.
  { intros f Hf Hl. unfold getBitcoinBalance.
    by rewrite (fetchAll_pages f pages fuel 0 [] last). }
  split; [by apply Hrun|].
  intros fetch' Hagree. rewrite (Hrun fetch) by done.
  apply Hrun.
  - intros i page Hi. destruct (Hfull i page Hi) as [Hf Hl]. split; [|done].
    rewrite Hagree; [done|].
    apply lookup_lt_Some in Hi. simpl. nia.
  - by rewrite Hagree.
Qed.

Definition fullPage (hash : string) : list Transaction :=
  replicate pageSize (paying (Some hash) None "me" (JNum 1)).

Lemma getBitcoinBalance_pages_witness :
  getBitcoinBalance 2
    (λ offset, if decide (offset = 0%nat) then Ok (fullPage "a") else Ok [tx_X])
    "me"
  = Some (analyzeUTXOs "me" (concat [fullPage "a"] ++ [tx_X])).
Proof.
  refine (proj1 (getBitcoinBalance_pages _ "me" [fullPage "a"] [tx_X] 2 _ _ _ _)).
  - intros i page Hi. destruct i as [|i]; [|destruct i; discriminate Hi].
    injection Hi as <-. split; [reflexivity|]. vm_compute. lia.
  - reflexivity.
  - vm_compute. lia.
  - simpl. lia.
Defined.

(** X2.  When a request is rejected after any number of full pages, the
    error is the result: the records fetched before it are dropped and no
    balance is computed from a part of the history. *)
Theorem getBitcoinBalance_error fetch address pages e fuel :
  fullPages fetch 0 pages →
  fetch (length pages * pageSize)%nat = Err e →
  (length pages < fuel)%nat →
  getBitcoinBalance fuel fetch address = Some (Err e).
Proof.
  intros Hfull Herr Hfuel. unfold getBitcoinBalance.
  by rewrite (fetchAll_error fetch pages fuel 0 [] e).
Qed.

Lemma getBitcoinBalance_error_witness :
  getBitcoinBalance 2
    (λ offset, if decide (offset = 0%nat) then Ok (fullPage "a")
               else Err (Error "socket hang up"))
    "me"
  = Some (Err (Error "socket hang up")).
Proof.
  refine (getBitcoinBalance_error _ "me" [fullPage "a"] _ 2 _ _ _).
  - intros i page Hi. destruct i as [|i]; [|destruct i; discriminate Hi].
    injection Hi as <-. split; [reflexivity|]. vm_compute. lia.
  - reflexivity.
  - simpl. lia.
Defined.

(** A source that holds the history [all] and answers a request with the
    slice of at most 50 records at the offset. *)
Definition serve (all : list Transaction) (offset : nat)
  : result (list Transaction) :=
  Ok (take pageSize (drop offset all)).

Lemma fetchAll_serve all : ∀ fuel offset acc,
  (length (drop offset all) / pageSize < fuel)%nat →
  fetchAll fuel (serve all) offset acc = Some (Ok (acc ++ drop offset all)).
Proof.
  induction fuel as [|fuel IH]; intros offset acc Hfuel; [lia|].
  simpl. rewrite length_take.
  set (l := drop offset all) in *.
  destruct (decide (length l `min` pageSize = 0)%nat) as [H0|H0].
  - rewrite decide_True by (unfold pageSize in *; lia).
    assert (l = []) as -> by (apply length_zero_iff_nil; unfold pageSize in *; lia).
    by rewrite app_nil_r.
  - rewrite decide_False by (unfold pageSize in *; lia).
    destruct (decide (length l < pageSize)%nat) as [Hlt|Hge].
    + rewrite decide_True by (unfold pageSize in *; lia).
      by rewrite take_ge by (unfold pageSize in *; lia).
    + rewrite decide_False by (unfold pageSize in *; lia).
      rewrite IH.
      * rewrite <-app_assoc. do 3 f_equal.
        rewrite <-(take_drop pageSize l) at 2. f_equal.
        unfold l. by rewrite drop_drop.
      * rewrite <-drop_drop. fold l. rewrite length_drop.
        assert (length l = (length l - pageSize) + 1 * pageSize)%nat as Hl by lia.
        rewrite Hl in Hfuel. rewrite Nat.div_add in Hfuel by done. lia.
Qed.

Lemma fetchAll_serve_short all : ∀ fuel offset acc,
  (fuel ≤ length (drop offset all) / pageSize)%nat →
  fetchAll fuel (serve all) offset acc = None.
Proof.
  induction fuel as [|fuel IH]; intros offset acc Hfuel; [done|].
  simpl. rewrite length_take.
  set (l := drop offset all) in *.
  assert (pageSize ≤ length l)%nat as Hl.
  { destruct (decide (pageSize ≤ length l)%nat); [done|].
    rewrite Nat.div_small in Hfuel by lia. lia. }
  rewrite decide_False by (unfold pageSize in *; lia).
  rewrite decide_False by (unfold pageSize in *; lia).
  apply IH. rewrite <-drop_drop. fold l. rewrite length_drop.
  assert (length l = (length l - pageSize) + 1 * pageSize)%nat as Hl' by lia.
  rewrite Hl' in Hfuel. rewrite Nat.div_add in Hfuel by done. lia.
Qed.

(** X3.  Against a source that serves a fixed history in slices of 50, the
    loop ends after exactly [length all / 50 + 1] requests (a history of a
    multiple of 50 records costs a last request that returns nothing) and the
    balance is the analysis of the whole history, each record once and in
    order. *)
Theorem getBitcoinBalance_complete (all : list Transaction) address fuel :
  ((length all / pageSize < fuel)%nat →
     getBitcoinBalance fuel (serve all) address = Some (analyzeUTXOs address all))
  ∧ ((fuel ≤ length all / pageSize)%nat →
     getBitcoinBalance fuel (serve all) address = None).
Proof.
  unfold getBitcoinBalance. split; intros Hfuel.
  - by rewrite fetchAll_serve.
  - by rewrite fetchAll_serve_short.
Qed.

Lemma getBitcoinBalance_complete_witness :
  getBitcoinBalance 2 (serve (fullPage "a")) "me"
  = Some (analyzeUTXOs "me" (fullPage "a"))
  ∧ getBitcoinBalance 1 (serve (fullPage "a")) "me" = None.
Proof.
  split.
  - apply (proj1 (getBitcoinBalance_complete (fullPage "a") "me" 2)).
    vm_compute. lia.
  - apply (proj2 (getBitcoinBalance_complete (fullPage "a") "me" 1)).
    vm_compute. lia.
Defined.

(** ** The unspent entries of a snapshot *)

(** Output [index] of a record with hash [hash] pays [address]. *)
Definition pays (address : string) (txs : list Transaction)
    (hash : string) (index : nat) : Prop :=
  ∃ tx o, tx ∈ txs ∧ hashString tx = hash
          ∧ outputsOf tx !! index = Some o ∧ output_address o = address.

Lemma elem_of_unspentOf (m : UtxoMap) u :
  u ∈ unspentOf m
  ↔ ∃ k e, (k, e) ∈ m ∧ utxo_spent e = false
           ∧ u = {| unspent_utxo := k; unspent_value := utxo_value e;
                    unspent_confirmed := utxo_confirmed e |}.
Proof.
  unfold unspentOf. rewrite list_elem_of_fmap. split.
  - intros ([k e] & -> & Hin). apply list_elem_of_filter in Hin as [Hs Hin].
    exists k, e. split_and!; [done| |done]. by destruct (utxo_spent e).
  - intros (k & e & Hin & Hs & ->). exists (k, e). split; [done|].
    apply list_elem_of_filter. split; [|done]. by rewrite Hs.
Qed.

Lemma utxos_from_writes address txs t k e :
  classify address txs = Ok t → (k, e) ∈ utxos t →
  ∃ tx i o, tx ∈ txs ∧ outputsOf tx !! i = Some o ∧ output_address o = address
            ∧ (k, e) = entryOf (spentSet address txs) tx i o.
Proof.
  intros Ht Hin. apply classify_Ok in Ht as (Hu & _). rewrite Hu in Hin.
  apply elem_of_setEntries in Hin as [Hin|Hin]; [by apply elem_of_nil in Hin|].
  by apply elem_of_writes in Hin.
Qed.

Lemma utxos_has_paid address txs t tx i o :
  classify address txs = Ok t →
  tx ∈ txs → outputsOf tx !! i = Some o → output_address o = address →
  ∃ e, (utxoKey (hashString tx) i, e) ∈ utxos t.
Proof.
  intros Ht Htx Ho Ha. apply classify_Ok in Ht as (Hu & _).
  apply elem_of_keysOf. rewrite Hu, keysOf_setEntries. right.
  apply elem_of_keysOf.
  exists (entryOf (spentSet address txs) tx i o).2.
  apply elem_of_writes. by exists tx, i, o.
Qed.

(** X4.  The unspent list of a snapshot names exactly the outputs of the
    history that pay the address and that no input of the history consumes
    as a coin of the address; each element carries the value of such an
    output and the confirmation state of the record that holds it. *)
Theorem unspent_iff_unconsumed address txs b :
  analyzeUTXOs address txs = Ok b →
  (∀ hash index,
     (∃ u, u ∈ unspentUTXOs b ∧ unspent_utxo u = utxoKey hash index)
     ↔ pays address txs hash index ∧ ¬ consumes address txs hash index)
  ∧ (∀ u, u ∈ unspentUTXOs b →
       ∃ tx i o, tx ∈ txs ∧ outputsOf tx !! i = Some o
                 ∧ output_address o = address
                 ∧ u = {| unspent_utxo := utxoKey (hashString tx) i;
                          unspent_value := output_value o;
                          unspent_confirmed := isConfirmed tx |}).
Proof.
  intros Hb. apply analyzeUTXOs_Ok in Hb as (t & Ht & ->). simpl. split.
  - intros hash index. split.
    + intros (u & Hu & Hk). apply elem_of_unspentOf in Hu as (k & e & Hin & Hs & ->).
      simpl in Hk. subst k.
      pose proof (utxos_spent_mark _ _ _ _ _ Ht Hin) as Hmark.
      destruct (utxos_from_writes _ _ _ _ _ Ht Hin)
        as (tx & i & o & Htx & Ho & Ha & [= Hkey _]).
      apply utxoKey_inj in Hkey as [-> ->]. split.
      * by exists tx, o.
      * rewrite <-spentSet_consumes. rewrite Hs in Hmark.
        symmetry in Hmark. by apply bool_decide_eq_false in Hmark.
    + intros [(tx & o & Htx & <- & Ho & Ha) Hnot].
      destruct (utxos_has_paid _ _ _ _ _ _ Ht Htx Ho Ha) as [e He].
      exists {| unspent_utxo := utxoKey (hashString tx) index;
                unspent_value := utxo_value e;
                unspent_confirmed := utxo_confirmed e |}.
      split; [|done]. apply elem_of_unspentOf.
      exists (utxoKey (hashString tx) index), e.
      split_and!; [done| |done].
      rewrite (utxos_spent_mark _ _ _ _ _ Ht He).
      apply bool_decide_eq_false. by rewrite spentSet_consumes.
  - intros u Hu. apply elem_of_unspentOf in Hu as (k & e & Hin & Hs & ->).
    destruct (utxos_from_writes _ _ _ _ _ Ht Hin)
      as (tx & i & o & Htx & Ho & Ha & [= -> ->]).
    by exists tx, i, o.
Qed.

Lemma unspent_iff_unconsumed_witness :
  ¬ ∃ u, u ∈ @nil Unspent ∧ unspent_utxo u = utxoKey "X" 0.
Proof.
  intros Hu.
  destruct (unspent_iff_unconsumed "me" [tx_X; tx_Y]
              {| bal_incoming := JNum 5000; bal_outgoing := JNum 0;
                 bal_incomingPending := JNum 0; bal_outgoingPending := JNum 5000;
                 availableBalance := JNum 0; unspentUTXOs := [] |})
    as [Hiff _].
  - vm_compute. reflexivity.
  - apply Hiff in Hu as [_ Hnot]. apply Hnot.
    exists tx_Y, (mkInput (Some (mkCoin "me" (JNum 5000))) (Some (mkPrevout "X" 0))),
      (mkCoin "me" (JNum 5000)).
    split_and!; try reflexivity.
    + apply elem_of_cons. right. apply list_elem_of_singleton. reflexivity.
    + apply list_elem_of_singleton. reflexivity.
Defined.

Lemma unspentOf_cons k e (m : UtxoMap) :
  unspentOf ((k, e) :: m)
  = if utxo_spent e then unspentOf m
    else {| unspent_utxo := k; unspent_value := utxo_value e;
            unspent_confirmed := utxo_confirmed e |} :: unspentOf m.
Proof.
  unfold unspentOf, UtxoMap. rewrite filter_cons. simpl.
  by destruct (utxo_spent e).
Qed.

Lemma confirmedOnly_cons u l :
  confirmedOnly (u :: l)
  = if unspent_confirmed u then u :: confirmedOnly l else confirmedOnly l.
Proof.
  unfold confirmedOnly. rewrite filter_cons.
  by destruct (unspent_confirmed u).
Qed.

Lemma unspentOf_confirmed_values (m : UtxoMap) :
  unspent_value <$> confirmedOnly (unspentOf m)
  = utxo_value <$> filter spendable m.*2.
Proof.
  induction m as [|[k e] m IH]; [done|].
  rewrite unspentOf_cons, fmap_cons, filter_cons. simpl.
  destruct (decide (spendable e)) as [[Hs Hc]|Hn].
  - rewrite Hs, confirmedOnly_cons. simpl. rewrite Hc, !fmap_cons. simpl.
    by rewrite IH.
  - destruct (utxo_spent e) eqn:Hs; [done|].
    rewrite confirmedOnly_cons. simpl.
    destruct (utxo_confirmed e) eqn:Hc; [|done].
    exfalso. by apply Hn.
Qed.

Lemma selectable_total_funds address txs b :
  analyzeUTXOs address txs = Ok b →
  totalValue (confirmedOnly (unspentUTXOs b)) = availableBalance b.
Proof.
  intros Hb. apply analyzeUTXOs_Ok in Hb as (t & Ht & ->). simpl.
  unfold totalValue. by rewrite unspentOf_confirmed_values, availableOf_sum.
Qed.

(** X5.  What the selection can draw on is what the snapshot shows as
    available: the values of the confirmed elements of [unspentUTXOs] sum up
    to [availableBalance]. *)
Theorem selectable_total_is_available address txs b :
  analyzeUTXOs address txs = Ok b →
  totalValue (confirmedOnly (unspentUTXOs b)) = availableBalance b.
Proof.
  intros Hb. apply analyzeUTXOs_Ok in Hb as (t & Ht & ->). simpl.
  unfold totalValue. by rewrite unspentOf_confirmed_values, availableOf_sum.
Qed.

Definition tx_W : Transaction := paying (Some "W") (Some 101) "me" (JNum 700).

Lemma selectable_total_is_available_witness :
  totalValue (confirmedOnly [mkUnspent "W:0" (JNum 700) true]) = JNum 700.
Proof.
  apply (selectable_total_is_available "me" [tx_X; tx_Y; tx_W]
           {| bal_incoming := JNum 5700; bal_outgoing := JNum 0;
              bal_incomingPending := JNum 0; bal_outgoingPending := JNum 5000;
              availableBalance := JNum 700;
              unspentUTXOs := [mkUnspent "W:0" (JNum 700) true] |}).
  vm_compute. reflexivity.
Defined.

(** ** Totals that are numbers *)

Definition isNumber (v : jsval) : Prop := ∃ z, v = JNum z.

#[global] Instance isNumber_dec v : Decision (isNumber v).
Proof.
  destruct v as [|z|]; [right|left|right]; unfold isNumber; eauto;
    by intros [? ?].
Defined.

(** The integer a value stands for, 0 when it is not a number. *)
Definition numberOf (v : jsval) : Z :=
  match v with
  | JNum z => z
  | _ => 0
  end.

Definition integerSum (l : list jsval) : Z := foldr (λ v s, numberOf v + s) 0 l.

Lemma sumFrom_numbers l : ∀ a,
  Forall isNumber l → sumFrom (JNum a) l = JNum (a + integerSum l).
Proof.
  induction l as [|v l IH]; intros a Hl; simpl.
  - f_equal. lia.
  - apply Forall_cons in Hl as [[z ->] Hl]. simpl.
    rewrite IH by done. f_equal. lia.
Qed.

Lemma sumFrom_poisoned l : ∀ acc,
  ¬ Forall isNumber l → sumFrom acc l = JNaN.
Proof.
  induction l as [|v l IH]; intros acc Hl.
  - exfalso. apply Hl. constructor.
  - rewrite sumFrom_cons.
    destruct (decide (isNumber v)) as [Hv|Hv].
    + apply IH. intros H. apply Hl. by constructor.
    + assert (js_add acc v = JNaN) as ->; [|apply sumFrom_NaN].
      destruct acc as [|a|], v as [|z|]; try done. exfalso. apply Hv. by exists z.
Qed.

(** A sum is the integer sum of its terms, or [NaN] as soon as one term is
    missing or [NaN]. *)
Lemma js_sum_cases l :
  (Forall isNumber l ∧ js_sum l = JNum (integerSum l))
  ∨ (¬ Forall isNumber l ∧ js_sum l = JNaN).
Proof.
  destruct (decide (Forall isNumber l)) as [Hl|Hl]; [left|right]; split; try done.
  - unfold js_sum. by rewrite sumFrom_numbers.
  - by apply sumFrom_poisoned.
Qed.

(** X6.  Each of the four totals of a snapshot, and the available balance,
    is the exact integer sum of the values it adds up when all of them are
    numbers, and [NaN] as soon as one of them is missing: a single output or
    coin without a value wipes out the total it belongs to, and nothing is
    summed in part. *)
Theorem totals_exact_or_NaN address txs b :
  analyzeUTXOs address txs = Ok b →
  ∃ t, classify address txs = Ok t ∧
  Forall (λ '(total, values),
            (Forall isNumber values ∧ total = JNum (integerSum values))
            ∨ (¬ Forall isNumber values ∧ total = JNaN))
    [ (bal_incoming b, incomingValues address true txs);
      (bal_incomingPending b, incomingValues address false txs);
      (bal_outgoing b, outgoingValues address true txs);
      (bal_outgoingPending b, outgoingValues address false txs);
      (availableBalance b, utxo_value <$> filter spendable (utxos t).*2) ].
Proof.
  intros Hb. apply analyzeUTXOs_Ok in Hb as (t & Ht & ->). simpl.
  exists t. split; [done|].
  apply classify_Ok in Ht as (_ & -> & -> & -> & ->).
  rewrite availableOf_sum.
  repeat (apply Forall_cons; split; [apply js_sum_cases|]).
  apply Forall_nil_2.
Qed.

Lemma totals_exact_or_NaN_witness :
  ∃ t, classify "me" [paying None (Some 7) "me" JUndefined] = Ok t.
Proof.
  destruct (totals_exact_or_NaN "me" [paying None (Some 7) "me" JUndefined]
              {| bal_incoming := JNaN; bal_outgoing := JNum 0;
                 bal_incomingPending := JNum 0; bal_outgoingPending := JNum 0;
                 availableBalance := JNaN;
                 unspentUTXOs := [mkUnspent "undefined:0" JUndefined true] |})
    as (t & Ht & _).
  - vm_compute. reflexivity.
  - exists t. exact Ht.
Defined.

(** ** The available balance against the confirmed income *)

Lemma writesFrom_values address spentUtxos tx outs : ∀ i,
  (λ w, utxo_value w.2) <$> writesFrom address spentUtxos tx i outs
  = output_value <$> filter (λ o, output_address o = address) outs.
Proof.
  induction outs as [|o outs IH]; intros i; [done|].
  simpl. rewrite fmap_app, IH, filter_cons.
  by destruct (decide (output_address o = address)).
Qed.

Lemma writesFrom_confirmed address spentUtxos tx outs : ∀ i,
  Forall (λ w, utxo_confirmed w.2 = isConfirmed tx)
         (writesFrom address spentUtxos tx i outs).
Proof.
  induction outs as [|o outs IH]; intros i; simpl; [constructor|].
  apply Forall_app. split; [|apply IH].
  destruct (decide (output_address o = address)); repeat constructor.
Qed.

Lemma filter_all {A} (P : A → Prop) `{∀ x, Decision (P x)} (l : list A) :
  Forall P l → filter P l = l.
Proof.
  induction 1 as [|x l Hx Hl IH]; [done|].
  by rewrite filter_cons, decide_True, IH.
Qed.

Lemma filter_none {A} (P : A → Prop) `{∀ x, Decision (P x)} (l : list A) :
  Forall (λ x, ¬ P x) l → filter P l = [].
Proof.
  induction 1 as [|x l Hx Hl IH]; [done|].
  by rewrite filter_cons, decide_False, IH.
Qed.

(** The values written by records with a block number are the values that
    [incoming] adds up. *)
Lemma writes_confirmed_values address spentUtxos txs :
  (λ w, utxo_value w.2)
    <$> filter (λ w, utxo_confirmed w.2 = true) (writes address spentUtxos txs)
  = incomingValues address true txs.
Proof.
  unfold writes. induction txs as [|tx txs IH]; [done|].
  rewrite incomingValues_cons. rewrite bind_cons, filter_app, fmap_app, IH.
  f_equal. unfold writesOf, paidTo.
  pose proof (writesFrom_confirmed address spentUtxos tx (outputsOf tx) 0) as Hc.
  destruct (isConfirmed tx) eqn:Hconf.
  - rewrite decide_True by done. rewrite filter_all by done.
    apply writesFrom_values.
  - rewrite decide_False by done. rewrite filter_none; [done|].
    eapply Forall_impl; [exact Hc|]. intros w Hw. by rewrite Hw.
Qed.

Lemma sumFrom_submseteq (l1 l2 : list jsval) :
  l1 ⊆+ l2 → ∀ a t,
  Forall (λ v, js_ge v (JNum 0) = true) l2 →
  sumFrom (JNum a) l2 = JNum t →
  ∃ s, sumFrom (JNum a) l1 = JNum s ∧ a ≤ s ≤ t.
Proof.
  induction 1 as [|x l1 l2 _ IH|x y l|x l1 l2 _ IH|l1 l2 l3 H12 IH1 H23 IH2];
    intros a t Hpos Hsum.
  - exists a. split; [done|]. apply (sumFrom_nonneg a [] t) in Hsum; [lia|done].
  - apply Forall_cons in Hpos as [Hx Hpos].
    destruct x as [|z|]; try done. simpl in Hsum.
    destruct (IH _ _ Hpos Hsum) as (s & Hs & Hle).
    exists s. split; [done|]. simpl in Hx. apply bool_decide_eq_true in Hx. lia.
  - exists t. split; [|split; [|lia]].
    + rewrite <-Hsum. apply sumFrom_perm. apply perm_swap.
    + by apply (sumFrom_nonneg a (x :: y :: l) t).
  - apply Forall_cons in Hpos as [Hx Hpos].
    destruct x as [|z|]; try done. simpl in Hsum.
    assert (a + z ≤ t) by (by apply (sumFrom_nonneg (a + z) l2 t)).
    simpl in Hx. apply bool_decide_eq_true in Hx.
    destruct (IH a (t - z)) as (s & Hs & Hle); [done| |].
    + assert (JNum (a + z) = js_add (JNum z) (JNum a)) as Heq by (simpl; f_equal; lia).
      rewrite Heq, sumFrom_add in Hsum.
      destruct (sumFrom (JNum a) l2) as [|u|]; try done.
      simpl in Hsum. injection Hsum as <-. f_equal. lia.
    + exists s. split; [done|lia].
  - destruct (IH2 _ _ Hpos Hsum) as (s2 & Hs2 & Hle2).
    assert (Forall (λ v, js_ge v (JNum 0) = true) l2) as Hpos2.
    { rewrite Forall_forall in Hpos |- *. intros v Hv. apply Hpos.
      by eapply elem_of_submseteq. }
    destruct (IH1 _ _ Hpos2 Hs2) as (s1 & Hs1 & Hle1).
    exists s1. split; [done|lia].
Qed.

Lemma filter_spendable_snd (m : UtxoMap) :
  filter spendable m.*2 = (filter (λ w, spendable w.2) m).*2.
Proof.
  unfold UtxoMap in *. induction m as [|[k e] m IH]; [done|].
  rewrite fmap_cons, !filter_cons. simpl.
  destruct (decide (spendable e)); [|done].
  rewrite fmap_cons. simpl. by rewrite IH.
Qed.

Lemma sumFrom_nonneg_number l : ∀ a,
  Forall (λ v, js_ge v (JNum 0) = true) l → ∃ t, sumFrom (JNum a) l = JNum t.
Proof.
  induction l as [|v l IH]; intros a Hl; [by exists a|].
  apply Forall_cons in Hl as [Hv Hl]. destruct v as [|z|]; try done.
  simpl. by apply IH.
Qed.

(** X7.  When the outputs that pay the address in confirmed records have
    non-negative values, the available balance is a number between 0 and the
    confirmed income: overwritten, spent or pending entries can lower it, and
    nothing can raise it above what was received. *)
Theorem available_le_incoming address txs b :
  analyzeUTXOs address txs = Ok b →
  Forall (λ v, js_ge v (JNum 0) = true) (incomingValues address true txs) →
  ∃ available received,
    availableBalance b = JNum available ∧ bal_incoming b = JNum received
    ∧ 0 ≤ available ≤ received.
Proof.
  intros Hb Hpos. apply analyzeUTXOs_Ok in Hb as (t & Ht & ->). simpl.
  destruct (sumFrom_nonneg_number _ 0 Hpos) as [received Hrec].
  pose proof (classify_Ok _ _ _ Ht) as (Hu & Hinc & _).
  rewrite Hinc, availableOf_sum, filter_spendable_snd.
  set (S := spentSet address txs) in *.
  assert (filter (λ w, spendable w.2) (utxos t)
          ⊆+ filter (λ w, utxo_confirmed w.2 = true) (writes address S txs)) as Hsub.
  { apply NoDup_submseteq.
    - eapply sublist_NoDup; [|apply sublist_filter].
      eapply NoDup_fmap_1. eapply utxo_keys_NoDup. exact Ht.
    - intros [k e] Hin. apply list_elem_of_filter in Hin as [[_ Hc] Hin].
      apply list_elem_of_filter. split; [done|].
      rewrite Hu in Hin. apply elem_of_setEntries in Hin as [Hin|Hin]; [|done].
      by apply elem_of_nil in Hin. }
  apply (fmap_submseteq (λ w, utxo_value w.2)) in Hsub.
  rewrite writes_confirmed_values in Hsub.
  destruct (sumFrom_submseteq _ _ Hsub 0 received Hpos Hrec) as (s & Hs & Hle).
  exists s, received. split_and!; [|done|lia|lia].
  unfold js_sum. rewrite <-Hs. f_equal.
  rewrite <-list_fmap_compose. done.
Qed.

Lemma available_le_incoming_witness :
  ∃ available received,
    JNum 700 = JNum available ∧ JNum 5700 = JNum received
    ∧ 0 ≤ available ≤ received.
Proof.
  apply (available_le_incoming "me" [tx_X; tx_Y; tx_W]
           {| bal_incoming := JNum 5700; bal_outgoing := JNum 0;
              bal_incomingPending := JNum 0; bal_outgoingPending := JNum 5000;
              availableBalance := JNum 700;
              unspentUTXOs := [mkUnspent "W:0" (JNum 700) true] |}).
  - vm_compute. reflexivity.
  - vm_compute. repeat constructor.
Defined.

(** ** A record delivered twice *)

Lemma map_set_same k e (m : UtxoMap) :
  map_get k m = Some e → map_set k e m = m.
Proof.
  induction m as [|[k' e'] m IH]; simpl; [done|].
  destruct (decide (k' = k)) as [->|Hne].
  - by intros [= ->].
  - intros H. by rewrite IH.
Qed.

Lemma setEntries_same ws (m : UtxoMap) :
  Forall (λ w, map_get w.1 m = Some w.2) ws → foldl setEntry m ws = m.
Proof.
  induction 1 as [|w ws Hw Hws IH]; [done|].
  simpl. unfold setEntry at 2. by rewrite map_set_same.
Qed.

Lemma writes_app address spentUtxos txs1 txs2 :
  writes address spentUtxos (txs1 ++ txs2)
  = writes address spentUtxos txs1 ++ writes address spentUtxos txs2.
Proof. unfold writes. apply bind_app. Qed.

Lemma repeated_perm (tx : Transaction) txs1 txs2 :
  txs1 ++ tx :: txs2 ≡ₚ tx :: (txs1 ++ txs2).
Proof. by rewrite Permutation_middle. Qed.

Lemma spentSet_repeated address tx txs1 txs2 :
  tx ∈ txs1 →
  spentSet address (txs1 ++ tx :: txs2) = spentSet address (txs1 ++ txs2).
Proof.
  intros Htx. apply set_eq. intros k. rewrite !elem_of_spentSet.
  split; intros (tx' & input & Hin & H).
  - exists tx', input. split; [|done].
    rewrite repeated_perm in Hin. apply elem_of_cons in Hin as [->|Hin]; [|done].
    apply elem_of_app. by left.
  - exists tx', input. split; [|done].
    rewrite repeated_perm. by right.
Qed.

(** The map is the same with and without the second delivery of a record. *)
Lemma utxos_repeated address tx txs1 txs2 t t' :
  sameHashSameRecord txs1 → tx ∈ txs1 →
  classify address (txs1 ++ txs2) = Ok t →
  classify address (txs1 ++ tx :: txs2) = Ok t' →
  utxos t' = utxos t.
Proof.
  intros Hsame Htx Ht Ht'.
  apply classify_Ok in Ht as (-> & _). apply classify_Ok in Ht' as (-> & _).
  rewrite (spentSet_repeated _ _ _ _ Htx).
  set (S := spentSet address (txs1 ++ txs2)).
  change (tx :: txs2) with ([tx] ++ txs2).
  rewrite !writes_app, !foldl_app. f_equal.
  apply setEntries_same. apply Forall_forall. intros [k e] Hin.
  apply setEntries_get; [by apply writes_consistent|].
  unfold writes in Hin. rewrite bind_singleton in Hin.
  unfold writesOf in Hin. apply elem_of_writesFrom in Hin as (j & o & Ho & Ha & He).
  apply elem_of_writes. by exists tx, j, o.
Qed.

(** X8.  When a record that the history already holds is delivered a second
    time further on (as happens when pages overlap), the reconstruction still
    succeeds with the same unspent list and the same available balance, but
    the record is counted once more in the four totals. *)
Theorem repeated_record_counted_twice address tx txs1 txs2 b :
  sameHashSameRecord txs1 → tx ∈ txs1 →
  analyzeUTXOs address (txs1 ++ txs2) = Ok b →
  ∃ b', analyzeUTXOs address (txs1 ++ tx :: txs2) = Ok b'
    ∧ unspentUTXOs b' = unspentUTXOs b
    ∧ availableBalance b' = availableBalance b
    ∧ bal_incoming b'
      = sumFrom (bal_incoming b) (if isConfirmed tx then paidTo address tx else [])
    ∧ bal_incomingPending b'
      = sumFrom (bal_incomingPending b)
          (if isConfirmed tx then [] else paidTo address tx)
    ∧ bal_outgoing b'
      = sumFrom (bal_outgoing b)
          (if isConfirmed tx then takenFrom address tx else [])
    ∧ bal_outgoingPending b'
      = sumFrom (bal_outgoingPending b)
          (if isConfirmed tx then [] else takenFrom address tx).
Proof.
  intros Hsame Htx Hb. apply analyzeUTXOs_Ok in Hb as (t & Ht & ->). simpl.
  assert (∃ t', classify address (txs1 ++ tx :: txs2) = Ok t') as [t' Ht'].
  { destruct (classify_cases address (txs1 ++ txs2)) as [[Hwf _]|[_ Herr]];
      [|congruence].
    destruct (classify_cases address (txs1 ++ tx :: txs2)) as [[_ Hok]|[Hbad _]];
      [done|].
    exfalso. apply Hbad. rewrite Forall_forall in Hwf |- *.
    intros tx' Hin. apply Hwf. rewrite repeated_perm in Hin.
    apply elem_of_cons in Hin as [->|Hin]; [|done]. apply elem_of_app. by left. }
  pose proof (utxos_repeated _ _ _ _ _ _ Hsame Htx Ht Ht') as Hu.
  eexists. unfold analyzeUTXOs at 1. rewrite Ht'. simpl.
  split; [reflexivity|]. simpl. rewrite Hu.
  apply classify_Ok in Ht as (_ & -> & -> & -> & ->).
  apply classify_Ok in Ht' as (_ & -> & -> & -> & ->).
  assert (∀ c, js_sum (incomingValues address c (txs1 ++ tx :: txs2))
             = sumFrom (js_sum (incomingValues address c (txs1 ++ txs2)))
                 (if decide (isConfirmed tx = c) then paidTo address tx else []))
    as Hin.
  { intros c. unfold js_sum. rewrite <-sumFrom_app. apply sumFrom_perm.
    unfold incomingValues, withState. rewrite repeated_perm, filter_cons.
    destruct (decide (isConfirmed tx = c)).
    - rewrite bind_cons. apply Permutation_app_comm.
    - by rewrite app_nil_r. }
  assert (∀ c, js_sum (outgoingValues address c (txs1 ++ tx :: txs2))
             = sumFrom (js_sum (outgoingValues address c (txs1 ++ txs2)))
                 (if decide (isConfirmed tx = c) then takenFrom address tx else []))
    as Hout.
  { intros c. unfold js_sum. rewrite <-sumFrom_app. apply sumFrom_perm.
    unfold outgoingValues, withState. rewrite repeated_perm, filter_cons.
    destruct (decide (isConfirmed tx = c)).
    - rewrite bind_cons. apply Permutation_app_comm.
    - by rewrite app_nil_r. }
  rewrite !Hin, !Hout.
  destruct (isConfirmed tx); simpl; split_and!; done.
Qed.

Lemma repeated_record_counted_twice_witness :
  ∃ b', analyzeUTXOs "me" ([tx_W; tx_X] ++ tx_W :: [tx_Y]) = Ok b'
    ∧ availableBalance b' = JNum 700
    ∧ bal_incoming b' = JNum 6400.
Proof.
  destruct (repeated_record_counted_twice "me" tx_W [tx_W; tx_X] [tx_Y]
              {| bal_incoming := JNum 5700; bal_outgoing := JNum 0;
                 bal_incomingPending := JNum 0; bal_outgoingPending := JNum 5000;
                 availableBalance := JNum 700;
                 unspentUTXOs := [mkUnspent "W:0" (JNum 700) true] |})
    as (b' & Hb' & _ & Hav & Hinc & _).
  - intros tx1 tx2 H1 H2 Hh.
    apply elem_of_cons in H1 as [->|H1]; [|apply list_elem_of_singleton in H1 as ->];
      (apply elem_of_cons in H2 as [->|H2]; [|apply list_elem_of_singleton in H2 as ->]);
      first [reflexivity | discriminate Hh].
  - apply elem_of_cons. left. reflexivity.
  - vm_compute. reflexivity.
  - exists b'. split; [exact Hb'|]. split; [exact Hav|]. exact Hinc.
Defined.

(** ** More about the selection *)

(** Whatever the values, the loop returns a prefix of the sorted array with
    its sum, and no shorter non-empty prefix had reached the required
    amount. *)
Lemma selectLoop_prefix required sorted : ∀ selected acc,
  ∃ k, (k ≤ length sorted)%nat
    ∧ selectLoop required sorted selected acc
      = (selected ++ take k sorted,
         sumFrom acc (unspent_value <$> take k sorted))
    ∧ ∀ j, (0 < j < k)%nat →
        js_ge (sumFrom acc (unspent_value <$> take j sorted)) required = false.
Proof.
  induction sorted as [|utxo rest IH]; intros selected acc.
  - exists 0%nat. simpl. rewrite app_nil_r. split_and!; [done|done|]. lia.
  - simpl selectLoop.
    destruct (js_ge (js_add acc (unspent_value utxo)) required) eqn:Hge.
    + exists 1%nat. simpl. split_and!; [lia|done|]. lia.
    + destruct (IH (selected ++ [utxo]) (js_add acc (unspent_value utxo)))
        as (k & Hk & Hrun & Hmin).
      exists (S k). simpl. split_and!; [lia| |].
      * by rewrite Hrun, <-app_assoc.
      * intros [|[|j]] Hj; [lia|done|]. apply (Hmin (S j)). lia.
Qed.

Lemma selectUtxos_Ok unspent amount fee selected inputSum :
  selectUtxos unspent amount fee = Ok (selected, inputSum) →
  ∃ k, (k ≤ length (sortedUtxos unspent))%nat
    ∧ selected = take k (sortedUtxos unspent)
    ∧ inputSum = totalValue selected
    ∧ js_lt inputSum (js_add amount fee) = false
    ∧ ∀ j, (0 < j < k)%nat →
        js_ge (totalValue (take j (sortedUtxos unspent))) (js_add amount fee)
        = false.
Proof.
  unfold selectUtxos.
  destruct (selectLoop_prefix (js_add amount fee) (sortedUtxos unspent) [] (JNum 0))
    as (k & Hk & -> & Hmin).
  simpl. destruct (js_lt _ _) eqn:Hlt; [done|].
  intros [= <- <-]. exists k. split_and!; done.
Qed.

Lemma integerSum_cons v l : integerSum (v :: l) = numberOf v + integerSum l.
Proof. reflexivity. Qed.

Lemma integerSum_perm l1 l2 : l1 ≡ₚ l2 → integerSum l1 = integerSum l2.
Proof.
  induction 1 as [|x l1 l2 _ IH|x y l|l1 l2 l3 _ IH1 _ IH2]; simpl; lia.
Qed.

Lemma totalValue_numbers l :
  Forall numeric l → totalValue l = JNum (integerSum (unspent_value <$> l)).
Proof.
  intros Hl. unfold totalValue, js_sum. rewrite sumFrom_numbers; [done|].
  rewrite Forall_fmap. exact Hl.
Qed.

(** In an array in descending order the first [n] values are worth at least
    as much as any [n] of its values. *)
Lemma largest_first_dominates sorted :
  StronglySorted valueGe sorted → Forall numeric sorted →
  ∀ other, other ⊆+ sorted →
    integerSum (unspent_value <$> other)
    ≤ integerSum (unspent_value <$> take (length other) sorted).
Proof.
  induction 1 as [|x sorted Hs IH Hx]; intros Hnum other Hsub.
  - apply submseteq_nil_r in Hsub as ->. done.
  - apply Forall_cons in Hnum as [[zx Hzx] Hnum].
    apply submseteq_cons_r in Hsub as [Hsub|(other' & Hp & Hsub)].
    + destruct other as [|y other]; [done|].
      assert (y ∈ sorted) as Hy.
      { eapply elem_of_submseteq; [|exact Hsub]. left. }
      assert (other ⊆+ sorted) as Hsub'.
      { etrans; [|exact Hsub]. by apply submseteq_cons. }
      specialize (IH Hnum other Hsub').
      rewrite Forall_forall in Hx. specialize (Hx y Hy).
      rewrite Forall_forall in Hnum. destruct (Hnum y Hy) as [zy Hzy].
      unfold valueGe in Hx. rewrite Hzx, Hzy in Hx. simpl in Hx.
      apply bool_decide_eq_true in Hx.
      change (take (length (y :: other)) (x :: sorted))
        with (x :: take (length other) sorted).
      rewrite !fmap_cons, !integerSum_cons, Hzx, Hzy. cbn [numberOf]. lia.
    + rewrite (integerSum_perm _ _ (fmap_Permutation unspent_value _ _ Hp)).
      rewrite (Permutation_length Hp).
      change (take (length (x :: other')) (x :: sorted))
        with (x :: take (length other') sorted).
      rewrite !fmap_cons, !integerSum_cons, Hzx. cbn [numberOf].
      specialize (IH Hnum other' Hsub). lia.
Qed.

(** X9.  Largest-first takes as few inputs as possible: when the confirmed
    entries have numeric values and the amount required is positive, no
    choice of confirmed entries that covers [amount + fee] has fewer entries
    than the selection. *)
Theorem selection_fewest_inputs unspent amount fee selected inputSum other :
  0 < amount + fee →
  Forall numeric (confirmedOnly unspent) →
  selectUtxos unspent (JNum amount) (JNum fee) = Ok (selected, inputSum) →
  other ⊆+ confirmedOnly unspent →
  js_ge (totalValue other) (JNum (amount + fee)) = true →
  (length selected ≤ length other)%nat.
Proof.
  intros Hreq Hnum Hsel Hother Hcover.
  apply selectUtxos_Ok in Hsel as (k & Hk & -> & _ & _ & Hmin).
  rewrite length_take_le by done.
  destruct (decide (k ≤ length other)%nat) as [|Hlt]; [done|exfalso].
  assert (Forall numeric (sortedUtxos unspent)) as Hnum'.
  { by rewrite sortedUtxos_perm. }
  assert (StronglySorted valueGe (sortedUtxos unspent)) as Hsorted.
  { by apply js_sort_sorted. }
  rewrite <-sortedUtxos_perm in Hother.
  pose proof (largest_first_dominates _ Hsorted Hnum' other Hother) as Hdom.
  assert (Forall numeric other) as Hnum_other.
  { rewrite Forall_forall in Hnum' |- *. intros u Hu. apply Hnum'.
    by eapply elem_of_submseteq. }
  rewrite totalValue_numbers in Hcover by done. simpl in Hcover.
  apply bool_decide_eq_true in Hcover.
  destruct (decide (length other = 0%nat)) as [H0|H0].
  - apply length_zero_iff_nil in H0. subst other. simpl in Hcover. lia.
  - specialize (Hmin (length other)).
    rewrite totalValue_numbers in Hmin.
    + simpl in Hmin. rewrite bool_decide_eq_false in Hmin. apply Hmin; lia.
    + rewrite Forall_forall in Hnum' |- *. intros u Hu. apply Hnum'.
      by eapply subseteq_take.
Qed.

Lemma selection_fewest_inputs_witness :
  (length [mkUnspent "c:0" (JNum 900) true]
   ≤ length [mkUnspent "a:0" (JNum 400) true; mkUnspent "b:1" (JNum 500) true])%nat.
Proof.
  apply (selection_fewest_inputs
           [mkUnspent "a:0" (JNum 400) true;
            mkUnspent "b:1" (JNum 500) true;
            mkUnspent "c:0" (JNum 900) true] 700 100
           [mkUnspent "c:0" (JNum 900) true] (JNum 900)
           [mkUnspent "a:0" (JNum 400) true; mkUnspent "b:1" (JNum 500) true]).
  - lia.
  - unfold confirmedOnly. simpl. repeat constructor; eexists; reflexivity.
  - vm_compute. reflexivity.
  - unfold confirmedOnly. simpl. apply submseteq_skip, submseteq_skip, submseteq_nil_l.
  - vm_compute. reflexivity.
Defined.

(** ** From the snapshot to the selection *)

Lemma unspentOf_keys_NoDup address txs t :
  classify address txs = Ok t → NoDup (unspent_utxo <$> unspentOf (utxos t)).
Proof.
  intros Ht. rewrite unspentOf_keys.
  eapply sublist_NoDup; [by eapply utxo_keys_NoDup|].
  unfold keysOf. apply fmap_sublist, sublist_filter.
Qed.

(** X10.  A selection made from the unspent list of a snapshot, for whatever
    amount and fee, never holds the same output twice, and each selected
    element is a confirmed element of that list: an output that pays the
    address and that no input of the history consumes. *)
Theorem selection_distinct_unspent address txs b amount fee selected inputSum :
  analyzeUTXOs address txs = Ok b →
  selectUtxos (unspentUTXOs b) amount fee = Ok (selected, inputSum) →
  NoDup (unspent_utxo <$> selected)
  ∧ inputSum = totalValue selected
  ∧ ∀ u, u ∈ selected →
      unspent_confirmed u = true ∧ u ∈ unspentUTXOs b
      ∧ ∃ tx i, tx ∈ txs ∧ isConfirmed tx = true
                ∧ unspent_utxo u = utxoKey (hashString tx) i
                ∧ ¬ consumes address txs (hashString tx) i.
Proof.
  intros Hb Hsel.
  apply selectUtxos_Ok in Hsel as (k & Hk & -> & -> & _ & _).
  pose proof (analyzeUTXOs_Ok _ _ _ Hb) as (t & Ht & Heq).
  assert (unspentUTXOs b = unspentOf (utxos t)) as Hun by (by rewrite Heq).
  split_and!; [|done|].
  - eapply sublist_NoDup; [|apply fmap_sublist, sublist_take].
    rewrite sortedUtxos_perm. unfold confirmedOnly.
    eapply sublist_NoDup; [|apply fmap_sublist, sublist_filter].
    rewrite Hun. by eapply unspentOf_keys_NoDup.
  - intros u Hu. apply subseteq_take in Hu.
    apply sortedUtxos_confirmed in Hu as [Hc Hin]. split_and!; [done|done|].
    rewrite Hun in Hin.
    apply elem_of_unspentOf in Hin as (key & e & Hin & Hs & ->). simpl in *.
    pose proof (utxos_spent_mark _ _ _ _ _ Ht Hin) as Hmark.
    destruct (utxos_from_writes _ _ _ _ _ Ht Hin)
      as (tx & i & o & Htx & Ho & Ha & [= -> ->]).
    exists tx, i. split_and!; [done|done|done|].
    rewrite <-spentSet_consumes. simpl in Hs. by apply bool_decide_eq_false in Hs.
Qed.

Lemma selection_distinct_unspent_witness :
  NoDup (unspent_utxo <$> [mkUnspent "W:0" (JNum 700) true]).
Proof.
  refine (proj1 (selection_distinct_unspent "me" [tx_X; tx_Y; tx_W]
            {| bal_incoming := JNum 5700; bal_outgoing := JNum 0;
               bal_incomingPending := JNum 0; bal_outgoingPending := JNum 5000;
               availableBalance := JNum 700;
               unspentUTXOs := [mkUnspent "W:0" (JNum 700) true] |}
            (JNum 600) (JNum 100) [mkUnspent "W:0" (JNum 700) true] (JNum 700) _ _)).
  - vm_compute. reflexivity.
  - vm_compute. reflexivity.
Defined.

(** The selection succeeds as soon as the confirmed entries cover a positive
    required amount. *)
Lemma selectUtxos_funded unspent amount fee :
  0 < amount + fee →
  js_ge (totalValue (confirmedOnly unspent)) (JNum (amount + fee)) = true →
  ∃ selected inputSum,
    selectUtxos unspent (JNum amount) (JNum fee) = Ok (selected, JNum inputSum)
    ∧ amount + fee ≤ inputSum.
Proof.
  intros Hreq Htotal.
  rewrite <-(totalValue_perm _ _ (sortedUtxos_perm unspent)) in Htotal.
  destruct (selectLoop_stops (amount + fee) (sortedUtxos unspent) [] 0)
    as (k & s & Hk & Hrun & Hsum & Hs & Hmin); [lia|exact Htotal|].
  exists (take k (sortedUtxos unspent)), s.
  unfold selectUtxos. simpl js_add. rewrite Hrun. simpl.
  by rewrite bool_decide_eq_false_2 by lia.
Qed.

(** ** The prompt for the amount *)

(** An answer the loop returns. *)
Definition acceptable (availableBalance fee : jsval) (amountSatoshis : Z) : Prop :=
  js_gt (JNum amountSatoshis) (calculateMaxSendable availableBalance fee) = false
  ∧ js_lt (JNum amountSatoshis) (JNum 546) = false.

#[global] Instance acceptable_dec a f amt : Decision (acceptable a f amt).
Proof. unfold acceptable. apply _. Defined.

Lemma acceptable_bounds availableBalance fee amountSatoshis :
  acceptable availableBalance fee amountSatoshis
  ↔ ∃ balance f, availableBalance = JNum balance ∧ fee = JNum f
                 ∧ 546 ≤ amountSatoshis ≤ balance - f.
Proof.
  unfold acceptable, calculateMaxSendable. split.
  - intros [Hmax Hdust]. simpl in Hdust. apply bool_decide_eq_false in Hdust.
    destruct availableBalance as [|balance|], fee as [|f|]; simpl in Hmax;
      try (apply bool_decide_eq_false in Hmax; lia).
    exists balance, f. split_and!; [done|done|lia|].
    destruct (bool_decide (0 < balance - f)) eqn:Hpos; simpl in Hmax;
      apply bool_decide_eq_false in Hmax; [lia|].
    lia.
  - intros (balance & f & -> & -> & Hlo & Hhi). simpl.
    rewrite bool_decide_eq_true_2 by lia. simpl.
    split; apply bool_decide_eq_false; lia.
Qed.

Lemma getAmountToSend_amount availableBalance fee positive amountSatoshis rest :
  getAmountToSend availableBalance fee (ReplyAmount positive amountSatoshis :: rest)
  = if negb positive then getAmountToSend availableBalance fee rest
    else if js_gt (JNum amountSatoshis) (calculateMaxSendable availableBalance fee)
    then getAmountToSend availableBalance fee rest
    else if js_lt (JNum amountSatoshis) (JNum 546)
    then getAmountToSend availableBalance fee rest
    else Some (Some amountSatoshis).
Proof. reflexivity. Qed.

Definition rejectedReply (availableBalance fee : jsval) (r : reply) : Prop :=
  match r with
  | ReplyCancel => False
  | ReplyAmount positive a =>
      positive = false ∨ ¬ acceptable availableBalance fee a
  end.

Lemma getAmountToSend_Some availableBalance fee replies amount :
  getAmountToSend availableBalance fee replies = Some (Some amount) →
  acceptable availableBalance fee amount
  ∧ ∃ rejected rest,
      replies = rejected ++ ReplyAmount true amount :: rest
      ∧ Forall (rejectedReply availableBalance fee) rejected.
Proof.
  induction replies as [|[|positive a] replies IH]; try done.
  rewrite getAmountToSend_amount.
  destruct positive; cbn [negb].
  - destruct (js_gt (JNum a) (calculateMaxSendable availableBalance fee)) eqn:Hmax.
    + intros Hget. destruct (IH Hget) as (Hacc & rejected & rest & -> & Hrej).
      split; [done|]. exists (ReplyAmount true a :: rejected), rest.
      split; [done|]. constructor; [|done]. right. intros [H _]. congruence.
    + destruct (js_lt (JNum a) (JNum 546)) eqn:Hdust.
      * intros Hget. destruct (IH Hget) as (Hacc & rejected & rest & -> & Hrej).
        split; [done|]. exists (ReplyAmount true a :: rejected), rest.
        split; [done|]. constructor; [|done]. right. intros [_ H]. congruence.
      * intros [= <-]. split; [done|]. by exists [], replies.
  - intros Hget. destruct (IH Hget) as (Hacc & rejected & rest & -> & Hrej).
    split; [done|]. exists (ReplyAmount false a :: rejected), rest.
    split; [done|]. constructor; [|done]. by left.
Qed.

(** X11.  The prompt returns an amount only if it lies between the dust
    limit of 546 and the available balance less the fee, both of which must
    be numbers; the amount returned is the first answer that lies in these
    bounds, every answer before it having been rejected and none of them
    being [cancel]. *)
Theorem getAmountToSend_first_acceptable availableBalance fee replies amount :
  getAmountToSend availableBalance fee replies = Some (Some amount) →
  (∃ balance f, availableBalance = JNum balance ∧ fee = JNum f
                ∧ 546 ≤ amount ∧ amount + f ≤ balance)
  ∧ ∃ rejected rest,
      replies = rejected ++ ReplyAmount true amount :: rest
      ∧ Forall (rejectedReply availableBalance fee) rejected.
Proof.
  intros Hget. apply getAmountToSend_Some in Hget as [Hacc Hrest].
  split; [|done].
  apply acceptable_bounds in Hacc as (balance & f & -> & -> & Hlo & Hhi).
  exists balance, f. split_and!; [done|done|done|lia].
Qed.

Lemma getAmountToSend_first_acceptable_witness :
  ∃ balance f, JNum 50000 = JNum balance ∧ JNum 1000 = JNum f
               ∧ 546 ≤ 10000 ∧ 10000 + f ≤ balance.
Proof.
  refine (proj1 (getAmountToSend_first_acceptable (JNum 50000) (JNum 1000)
            [ReplyAmount false 0; ReplyAmount true 100; ReplyAmount true 60000;
             ReplyAmount true 10000; ReplyCancel] 10000 _)).
  vm_compute. reflexivity.
Defined.

(** X12.  An amount that the prompt has accepted is always funded: with the
    balance and unspent list of one snapshot and a fee that is not negative,
    the selection for that amount succeeds and its inputs cover the amount
    and the fee, so the insufficient-funds error cannot follow an accepted
    amount. *)
Theorem accepted_amount_is_funded address txs b fee replies amount :
  analyzeUTXOs address txs = Ok b →
  0 ≤ fee →
  getAmountToSend (availableBalance b) (JNum fee) replies = Some (Some amount) →
  ∃ selected inputSum,
    selectUtxos (unspentUTXOs b) (JNum amount) (JNum fee)
    = Ok (selected, JNum inputSum)
    ∧ amount + fee ≤ inputSum.
Proof.
  intros Hb Hfee Hget.
  apply getAmountToSend_Some in Hget as [Hacc _].
  apply acceptable_bounds in Hacc as (balance & f & Hbal & [= <-] & Hlo & Hhi).
  apply selectUtxos_funded; [lia|].
  rewrite (selectable_total_funds _ _ _ Hb), Hbal. simpl.
  apply bool_decide_eq_true. lia.
Qed.

Lemma accepted_amount_is_funded_witness :
  ∃ selected inputSum,
    selectUtxos [mkUnspent "W:0" (JNum 700) true] (JNum 600) (JNum 100)
    = Ok (selected, JNum inputSum)
    ∧ 600 + 100 ≤ inputSum.
Proof.
  apply (accepted_amount_is_funded "me" [tx_X; tx_Y; tx_W]
           {| bal_incoming := JNum 5700; bal_outgoing := JNum 0;
              bal_incomingPending := JNum 0; bal_outgoingPending := JNum 5000;
              availableBalance := JNum 700;
              unspentUTXOs := [mkUnspent "W:0" (JNum 700) true] |}
           100 [ReplyAmount true 900; ReplyAmount true 600] 600).
  - vm_compute. reflexivity.
  - lia.
  - vm_compute. reflexivity.
Defined.

(** ** The checks before the prompt *)

Lemma mainChecks_number balance :
  mainChecks (JNum balance) true = AskAmount ↔ 1546 < balance.
Proof.
  unfold mainChecks, feeInSatoshis. simpl.
  repeat case_bool_decide; split; intros; try done; lia.
Qed.

(** X13.  With a numeric balance, main opens the prompt for the amount
    exactly when the balance exceeds the fee of 1000 plus the dust limit of
    546; the prompt then accepts exactly the amounts from 546 up to the
    balance less 1000, so that at least one amount can be entered. *)
Theorem prompt_can_be_answered balance :
  (mainChecks (JNum balance) true = AskAmount ↔ 1546 < balance)
  ∧ (mainChecks (JNum balance) true = AskAmount →
     (∀ amount, getAmountToSend (JNum balance) feeInSatoshis [ReplyAmount true amount]
                = Some (Some amount)
                ↔ 546 ≤ amount ≤ balance - 1000)
     ∧ ∃ amount, acceptable (JNum balance) feeInSatoshis amount).
Proof.
  split; [apply mainChecks_number|].
  intros Hask. apply mainChecks_number in Hask. split.
  - intros amount. rewrite getAmountToSend_amount. cbn [negb].
    unfold calculateMaxSendable, feeInSatoshis. simpl.
    rewrite (bool_decide_eq_true_2 (0 < balance - 1000)) by lia. simpl.
    repeat case_bool_decide; split; intros; try done; lia.
  - exists 546. apply acceptable_bounds. exists balance, 1000.
    split_and!; [done|done|lia|lia].
Qed.

Lemma prompt_can_be_answered_witness :
  ∃ amount, acceptable (JNum 2000) feeInSatoshis amount.
Proof.
  apply (proj2 (prompt_can_be_answered 2000)).
  vm_compute. reflexivity.
Defined.

(** X14.  A balance that is not a number (the [NaN] a missing output value
    leaves behind) passes both checks of main, so the prompt is opened; but
    the prompt then takes the maximum to be 0 and returns no amount, whatever
    is answered. *)
Theorem NaN_balance_opens_dead_prompt availableBalance :
  ¬ isNumber availableBalance →
  mainChecks availableBalance true = AskAmount
  ∧ calculateMaxSendable availableBalance feeInSatoshis = JNum 0
  ∧ ∀ fee replies amount,
      getAmountToSend availableBalance fee replies ≠ Some (Some amount).
Proof.
  intros Hnan.
  assert (availableBalance = JUndefined ∨ availableBalance = JNaN) as Hcases.
  { destruct availableBalance as [|z|]; eauto. exfalso. apply Hnan. by exists z. }
  split_and!.
  - by destruct Hcases as [-> | ->].
  - by destruct Hcases as [-> | ->].
  - intros fee replies amount Hget.
    apply getAmountToSend_Some in Hget as [Hacc _].
    apply acceptable_bounds in Hacc as (balance & f & -> & _). apply Hnan.
    by exists balance.
Qed.

Lemma NaN_balance_opens_dead_prompt_witness :
  mainChecks JNaN true = AskAmount
  ∧ getAmountToSend JNaN feeInSatoshis [ReplyAmount true 546] ≠ Some (Some 546).
Proof.
  destruct (NaN_balance_opens_dead_prompt JNaN) as (H1 & _ & H3).
  - intros [z Hz]. discriminate Hz.
  - split; [exact H1 | apply H3].
Defined.

(** ** The selection does not depend on the order of the unspent list *)

Definition jsGe (a b : jsval) : Prop := js_ge a b = true.

Lemma sortedUtxos_values_perm l l' :
  l ≡ₚ l' → Forall numeric (confirmedOnly l) →
  unspent_value <$> sortedUtxos l = unspent_value <$> sortedUtxos l'.
Proof.
  intros Hp Hnum.
  assert (confirmedOnly l ≡ₚ confirmedOnly l') as Hpc.
  { unfold confirmedOnly. by rewrite Hp. }
  assert (Forall numeric (confirmedOnly l')) as Hnum' by (by rewrite <-Hpc).
  apply (StronglySorted_unique_strong jsGe).
  - intros [|x|] [|y|] _ _ H1 H2; unfold jsGe in *; simpl in *; try done.
    apply bool_decide_eq_true in H1, H2. f_equal. lia.
  - apply (StronglySorted_fmap _ valueGe); [done|]. by apply js_sort_sorted.
  - apply (StronglySorted_fmap _ valueGe); [done|]. by apply js_sort_sorted.
  - by rewrite !sortedUtxos_perm, Hpc.
Qed.

(** The loop looks at the values only. *)
Lemma selectLoop_values required sorted1 : ∀ sorted2 selected1 selected2 acc,
  unspent_value <$> sorted1 = unspent_value <$> sorted2 →
  length selected1 = length selected2 →
  (selectLoop required sorted1 selected1 acc).2
  = (selectLoop required sorted2 selected2 acc).2
  ∧ length (selectLoop required sorted1 selected1 acc).1
    = length (selectLoop required sorted2 selected2 acc).1.
Proof.
  induction sorted1 as [|u1 sorted1 IH]; intros [|u2 sorted2] sel1 sel2 acc Hv Hl;
    try done.
  rewrite !fmap_cons in Hv. injection Hv as Hu Hv.
  simpl. rewrite Hu.
  destruct (js_ge (js_add acc (unspent_value u2)) required); simpl.
  - split; [done|]. rewrite !length_app. simpl. lia.
  - apply IH; [done|]. rewrite !length_app. simpl. lia.
Qed.

(** X15.  For unspent entries with numeric values, listing them in another
    order changes neither the outcome of the selection nor its size: either
    both selections fail with the same message, or both succeed with the same
    number of inputs and the same input sum (entries of equal value may be
    swapped for one another). *)
Theorem selection_order_insensitive l l' amount fee :
  l ≡ₚ l' → Forall numeric (confirmedOnly l) →
  match selectUtxos l amount fee, selectUtxos l' amount fee with
  | Ok (selected, inputSum), Ok (selected', inputSum') =>
      inputSum = inputSum' ∧ length selected = length selected'
  | Err e, Err e' => e = e'
  | _, _ => False
  end.
Proof.
  intros Hp Hnum.
  pose proof (sortedUtxos_values_perm _ _ Hp Hnum) as Hv.
  destruct (selectLoop_values (js_add amount fee) (sortedUtxos l) (sortedUtxos l')
              [] [] (JNum 0) Hv eq_refl) as [Hsum Hlen].
  unfold selectUtxos.
  destruct (selectLoop (js_add amount fee) (sortedUtxos l) [] (JNum 0))
    as [sel1 sum1].
  destruct (selectLoop (js_add amount fee) (sortedUtxos l') [] (JNum 0))
    as [sel2 sum2].
  simpl in Hsum, Hlen. subst sum2.
  by destruct (js_lt sum1 (js_add amount fee)).
Qed.

Lemma selection_order_insensitive_witness :
  match selectUtxos [mkUnspent "a:0" (JNum 400) true; mkUnspent "b:1" (JNum 400) true]
          (JNum 300) (JNum 50),
        selectUtxos [mkUnspent "b:1" (JNum 400) true; mkUnspent "a:0" (JNum 400) true]
          (JNum 300) (JNum 50) with
  | Ok (selected, inputSum), Ok (selected', inputSum') =>
      inputSum = inputSum' ∧ length selected = length selected'
  | Err e, Err e' => e = e'
  | _, _ => False
  end.
Proof.
  apply (selection_order_insensitive
           [mkUnspent "a:0" (JNum 400) true; mkUnspent "b:1" (JNum 400) true]
           [mkUnspent "b:1" (JNum 400) true; mkUnspent "a:0" (JNum 400) true]).
  - apply perm_swap.
  - unfold confirmedOnly. simpl. repeat constructor; eexists; reflexivity.
Defined.

(** ** Records that do not touch the address *)

(** A record with both arrays in which no output pays [address] and no input
    has a coin of [address]. *)
Definition unrelated (address : string) (tx : Transaction) : Prop :=
  ∃ outs ins, tx_outputs tx = Some outs ∧ tx_inputs tx = Some ins
    ∧ Forall (λ o, output_address o ≠ address) outs
    ∧ Forall (λ input, spendsFrom address input = None) ins.

Lemma forOf_app {S A : Type} (body : S → A → result S) s l1 l2 :
  forOf body s (l1 ++ l2) = forOf body s l1 ≫= λ s', forOf body s' l2.
Proof.
  revert s. induction l1 as [|x l1 IH]; intros s; simpl; [done|].
  destruct (body s x); simpl; [apply IH|done].
Qed.

Lemma forOf_skip {S A : Type} (body : S → A → result S) s x l1 l2 :
  (∀ s', body s' x = Ok s') →
  forOf body s (l1 ++ x :: l2) = forOf body s (l1 ++ l2).
Proof.
  intros Hx. rewrite !forOf_app. destruct (forOf body s l1); simpl; [|done].
  by rewrite Hx.
Qed.

Lemma markSpent_other address s input :
  spendsFrom address input = None → markSpent address s input = Ok s.
Proof. intros H. unfold markSpent. by rewrite H. Qed.

Lemma processInput_other address tx t input :
  spendsFrom address input = None → processInput address tx t input = t.
Proof. intros H. unfold processInput. by rewrite H. Qed.

Lemma markSpent_unrelated address ins : ∀ s,
  Forall (λ input, spendsFrom address input = None) ins →
  forOf (markSpent address) s ins = Ok s.
Proof.
  induction ins as [|input ins IH]; intros s Hins; [done|].
  apply Forall_cons in Hins as [Hi Hins].
  rewrite forOf_cons, markSpent_other by done. simpl. by apply IH.
Qed.

Lemma processInputs_unrelated address tx ins : ∀ t,
  Forall (λ input, spendsFrom address input = None) ins →
  foldl (processInput address tx) t ins = t.
Proof.
  induction ins as [|input ins IH]; intros t Hins; [done|].
  apply Forall_cons in Hins as [Hi Hins].
  simpl. rewrite processInput_other by done. by apply IH.
Qed.

Lemma processOutputs_unrelated address spentUtxos tx outs : ∀ i t,
  Forall (λ o, output_address o ≠ address) outs →
  processOutputs address spentUtxos tx i outs t = t.
Proof.
  induction outs as [|o outs IH]; intros i t Houts; [done|].
  apply Forall_cons in Houts as [Ho Houts].
  simpl. unfold processOutput. rewrite decide_False by done. by apply IH.
Qed.

(** X16.  A record in which no output pays the address and no input has a
    coin of the address changes nothing: with it or without it, wherever it
    stands in the history, the result is the same. *)
Theorem unrelated_record_ignored address tx txs1 txs2 :
  unrelated address tx →
  analyzeUTXOs address (txs1 ++ tx :: txs2) = analyzeUTXOs address (txs1 ++ txs2).
Proof.
  intros (outs & ins & Houts & Hins & Hpay & Hspend).
  unfold analyzeUTXOs, classify.
  assert (firstPass address (txs1 ++ tx :: txs2) = firstPass address (txs1 ++ txs2))
    as ->.
  { unfold firstPass. apply forOf_skip. intros s. rewrite Hins. simpl.
    by apply markSpent_unrelated. }
  destruct (firstPass address (txs1 ++ txs2)) as [spentUtxos|e]; simpl; [|done].
  unfold secondPass. rewrite forOf_skip; [done|].
  intros t. unfold processTransaction. rewrite Houts, Hins. simpl.
  by rewrite processOutputs_unrelated, processInputs_unrelated.
Qed.

Lemma unrelated_record_ignored_witness :
  analyzeUTXOs "me" ([tx_X] ++ paying (Some "Q") (Some 5) "you" (JNum 1) :: [tx_Y])
  = analyzeUTXOs "me" ([tx_X] ++ [tx_Y]).
Proof.
  apply unrelated_record_ignored.
  exists [mkOutput "you" (JNum 1)], []. split_and!; try reflexivity.
  - constructor; [|constructor]. simpl. discriminate.
  - constructor.
Defined.

(** ** Received less sent *)

(** The output an input consumes as a coin of [address], with the value the
    coin records. *)
Definition spend (address : string) (input : Input) : option (string * jsval) :=
  c ← spendsFrom address input;
  p ← input_prevout input;
  Some (utxoKey (prevout_hash p) (prevout_index p), coin_value c).

Definition spends (address : string) (txs : list Transaction)
  : list (string * jsval) :=
  txs ≫= λ tx, omap (spend address) (inputsOf tx).

Lemma spend_Some address input k v :
  spend address input = Some (k, v)
  ↔ spentRef address input = Some k
    ∧ coin_value <$> spendsFrom address input = Some v.
Proof.
  unfold spend, spentRef.
  destruct (spendsFrom address input) as [c|]; simpl; [|naive_solver].
  destruct (input_prevout input) as [p|]; simpl; naive_solver.
Qed.

Lemma elem_of_spends address txs k v :
  (k, v) ∈ spends address txs
  ↔ ∃ tx input, tx ∈ txs ∧ input ∈ inputsOf tx
                ∧ spend address input = Some (k, v).
Proof.
  unfold spends. rewrite list_elem_of_bind.
  setoid_rewrite list_elem_of_omap. naive_solver.
Qed.

Lemma spentSet_spends address txs k :
  k ∈ spentSet address txs ↔ ∃ v, (k, v) ∈ spends address txs.
Proof.
  rewrite elem_of_spentSet. setoid_rewrite elem_of_spends.
  setoid_rewrite spend_Some. split.
  - intros (tx & input & Htx & Hin & Href).
    unfold spentRef in Href.
    destruct (spendsFrom address input) as [c|] eqn:Hc; [|done].
    exists (coin_value c), tx, input. split_and!; try done.
    + unfold spentRef. by rewrite Hc.
    + by rewrite Hc.
  - intros (v & tx & input & Htx & Hin & Href & _). eauto.
Qed.

Lemma spends_values_tx address ins :
  Forall (prevoutOk address) ins →
  (omap (spend address) ins).*2
  = omap (λ input, coin_value <$> spendsFrom address input) ins.
Proof.
  induction 1 as [|input ins Hok _ IH]; [done|].
  unfold prevoutOk in Hok.
  change (omap (spend address) (input :: ins))
    with (match spend address input with
          | Some w => w :: omap (spend address) ins
          | None => omap (spend address) ins
          end).
  change (omap (λ i, coin_value <$> spendsFrom address i) (input :: ins))
    with (match coin_value <$> spendsFrom address input with
          | Some v => v :: omap (λ i, coin_value <$> spendsFrom address i) ins
          | None => omap (λ i, coin_value <$> spendsFrom address i) ins
          end).
  unfold spend at 1.
  destruct (spendsFrom address input) as [c|]; simpl; [|done].
  destruct (input_prevout input) as [p|]; simpl.
  - by rewrite <-IH.
  - by destruct Hok as [? ?]; [eauto|].
Qed.

Lemma spends_values address txs :
  Forall (inputsOk address) txs →
  Forall (λ tx, isConfirmed tx = true) txs →
  (spends address txs).*2 = outgoingValues address true txs.
Proof.
  intros Hok Hconf. unfold spends, outgoingValues, withState.
  rewrite (filter_all _ _ Hconf).
  induction Hok as [|tx txs (ins & Hins & Hp) _ IH]; [done|].
  apply Forall_cons in Hconf as [_ Hconf].
  rewrite !bind_cons, fmap_app, (IH Hconf). f_equal.
  unfold takenFrom, inputsOf. rewrite Hins. simpl. by apply spends_values_tx.
Qed.

Lemma writesFrom_keys_NoDup address spentUtxos tx outs : ∀ i,
  NoDup (keysOf (writesFrom address spentUtxos tx i outs)).
Proof.
  induction outs as [|o outs IH]; intros i; simpl; [constructor|].
  destruct (decide (output_address o = address)) as [Ha|Ha]; simpl; [|apply IH].
  change (keysOf (entryOf spentUtxos tx i o :: ?l)) with
    (utxoKey (hashString tx) i :: keysOf l).
  constructor; [|apply IH].
  rewrite elem_of_keysOf. intros [e He].
  apply elem_of_writesFrom in He as (j & o' & _ & _ & [= Hk _]).
  apply utxoKey_inj in Hk as [_ Hk]. lia.
Qed.

Lemma writes_keys_NoDup address spentUtxos txs :
  NoDup (hashString <$> txs) → NoDup (keysOf (writes address spentUtxos txs)).
Proof.
  unfold writes. induction txs as [|tx txs IH]; intros Hnd; [constructor|].
  rewrite fmap_cons in Hnd. apply NoDup_cons in Hnd as [Hh Hnd].
  rewrite bind_cons. unfold keysOf. rewrite fmap_app. apply NoDup_app.
  split_and!.
  - apply writesFrom_keys_NoDup.
  - intros k Hk1 Hk2.
    apply elem_of_keysOf in Hk1 as [e1 H1]. apply elem_of_keysOf in Hk2 as [e2 H2].
    apply elem_of_writesFrom in H1 as (j & o & _ & _ & [= -> _]).
    apply elem_of_writes in H2 as (tx' & j' & o' & Htx' & _ & _ & [= Hk _]).
    apply utxoKey_inj in Hk as [Hk _]. apply Hh.
    rewrite Hk. apply list_elem_of_fmap. by exists tx'.
  - by apply IH.
Qed.

Lemma integerSum_app l1 l2 : integerSum (l1 ++ l2) = integerSum l1 + integerSum l2.
Proof. induction l1 as [|v l1 IH]; simpl; lia. Qed.

Lemma js_sum_numbers l : Forall isNumber l → js_sum l = JNum (integerSum l).
Proof. intros Hl. unfold js_sum. by rewrite sumFrom_numbers. Qed.

Lemma filter_iff_in {A} (P Q : A → Prop)
    `{∀ x, Decision (P x), ∀ x, Decision (Q x)} (l : list A) :
  (∀ x, x ∈ l → P x ↔ Q x) → filter P l = filter Q l.
Proof.
  induction l as [|x l IH]; intros HPQ; [done|].
  rewrite !filter_cons.
  rewrite IH by (intros y Hy; apply HPQ; by right).
  destruct (decide (P x)) as [HP|HP], (decide (Q x)) as [HQ|HQ]; try done.
  - exfalso. apply HQ, HPQ; [left|done].
  - exfalso. apply HP, HPQ; [left|done].
Qed.

(** Each coin consumed is an output of the history that pays the address,
    with the value recorded for that output. *)
Definition coinsAreOutputs (address : string) (txs : list Transaction) : Prop :=
  ∀ k v, (k, v) ∈ spends address txs →
    ∃ tx i o, tx ∈ txs ∧ outputsOf tx !! i = Some o
              ∧ output_address o = address
              ∧ k = utxoKey (hashString tx) i ∧ output_value o = v.

(** X17.  For a history whose records are all confirmed and have different
    hashes, in which no output is consumed twice, every consumed coin is an
    output of the history with the value recorded there, and the paid values
    are numbers, the snapshot balances: [availableBalance] is [incoming] less
    [outgoing]. *)
Theorem closed_history_balances address txs b :
  analyzeUTXOs address txs = Ok b →
  Forall (λ tx, isConfirmed tx = true) txs →
  NoDup (hashString <$> txs) →
  NoDup (spends address txs).*1 →
  coinsAreOutputs address txs →
  Forall isNumber (incomingValues address true txs) →
  ∃ received sent,
    bal_incoming b = JNum received ∧ bal_outgoing b = JNum sent
    ∧ availableBalance b = JNum (received - sent).
Proof.
  intros Hb Hconf Hhash Honce Hcoins Hnum.
  pose proof (analyzeUTXOs_Ok _ _ _ Hb) as (t & Ht & ->). simpl.
  destruct (classify_cases address txs) as [[Hwf _]|[_ Herr]]; [|congruence].
  apply wellFormed_split in Hwf as [Hok _].
  pose proof (classify_Ok _ _ _ Ht) as (Hu & Hinc & _ & Hout & _).
  set (S := spentSet address txs) in *.
  set (W := writes address S txs) in *.
  assert (NoDup (keysOf W)) as HW by (by apply writes_keys_NoDup).
  assert (utxos t = W) as HuW.
  { rewrite Hu. by rewrite setEntries_fresh. }
  assert (Forall (λ w, utxo_confirmed w.2 = true) W) as HWconf.
  { apply Forall_forall. intros [k e] Hin.
    apply elem_of_writes in Hin as (tx & i & o & Htx & _ & _ & [= -> ->]).
    simpl. rewrite Forall_forall in Hconf. by apply Hconf. }
  assert ((λ w, utxo_value w.2) <$> W = incomingValues address true txs) as HWval.
  { rewrite <-(writes_confirmed_values address S txs). fold W.
    by rewrite filter_all. }
  set (value := λ w : string * UtxoEntry, utxo_value w.2) in *.
  set (isSpent := λ w : string * UtxoEntry, utxo_spent w.2 = true).
  assert (filter (λ w, spendable w.2) W = filter (λ w, ¬ isSpent w) W) as Hunspent.
  { apply filter_iff_in. intros w Hw. unfold spendable, isSpent.
    rewrite Forall_forall in HWconf. specialize (HWconf w Hw).
    destruct (utxo_spent w.2); naive_solver. }
  assert ((λ w, (w.1, value w)) <$> filter isSpent W ≡ₚ spends address txs)
    as Hspent.
  { apply NoDup_Permutation.
    - eapply (NoDup_fmap_1 fst). rewrite <-list_fmap_compose.
      eapply sublist_NoDup; [exact HW|]. apply fmap_sublist, sublist_filter.
    - by eapply NoDup_fmap_1.
    - intros [k v]. rewrite list_elem_of_fmap. split.
      + intros ([k' e] & [= -> ->] & Hin).
        apply list_elem_of_filter in Hin as [Hs Hin]. unfold isSpent in Hs.
        simpl in Hs.
        assert ((k', e) ∈ utxos t) as Hin' by (by rewrite HuW).
        rewrite (utxos_spent_mark _ _ _ _ _ Ht Hin') in Hs.
        apply bool_decide_eq_true in Hs.
        apply spentSet_spends in Hs as [v Hv].
        destruct (Hcoins _ _ Hv) as (tx & i & o & Htx & Ho & Ha & -> & <-).
        assert ((utxoKey (hashString tx) i, (entryOf S tx i o).2) ∈ W) as Hw.
        { apply elem_of_writes. by exists tx, i, o. }
        assert (e = (entryOf S tx i o).2) as ->.
        { apply (inj Some).
          rewrite <-(map_get_elem_of _ _ _ HW Hin).
          by rewrite <-(map_get_elem_of _ _ _ HW Hw). }
        exact Hv.
      + intros Hv.
        destruct (Hcoins _ _ Hv) as (tx & i & o & Htx & Ho & Ha & -> & <-).
        exists (entryOf S tx i o). split; [done|].
        apply list_elem_of_filter. split.
        * unfold isSpent. simpl. apply bool_decide_eq_true.
          apply spentSet_spends. eauto.
        * apply elem_of_writes. by exists tx, i, o. }
  assert (value <$> filter isSpent W ≡ₚ outgoingValues address true txs) as Hsent.
  { rewrite <-(spends_values address txs Hok Hconf), <-Hspent.
    by rewrite <-list_fmap_compose. }
  assert (value <$> W
          ≡ₚ (value <$> filter isSpent W) ++ (value <$> filter (λ w, ¬ isSpent w) W))
    as Hsplit.
  { rewrite <-fmap_app. by rewrite filter_app_complement. }
  assert (Forall isNumber (value <$> W)) as HnumW by (by rewrite HWval).
  assert (Forall isNumber (value <$> filter isSpent W)
          ∧ Forall isNumber (value <$> filter (λ w, ¬ isSpent w) W))
    as [Hnum1 Hnum2].
  { rewrite Hsplit in HnumW. by apply Forall_app in HnumW. }
  exists (integerSum (value <$> W)), (integerSum (value <$> filter isSpent W)).
  split_and!.
  - rewrite Hinc, <-HWval. by apply js_sum_numbers.
  - rewrite Hout. unfold js_sum.
    rewrite <-(sumFrom_perm _ _ _ Hsent). by apply js_sum_numbers.
  - rewrite availableOf_sum, filter_spendable_snd, HuW. unfold UtxoMap.
    rewrite Hunspent.
    rewrite <-list_fmap_compose.
    change (utxo_value ∘ snd) with value.
    rewrite js_sum_numbers by done. f_equal.
    rewrite (integerSum_perm _ _ Hsplit), integerSum_app. lia.
Qed.

Lemma closed_history_balances_witness :
  ∃ received sent,
    JNum 5700 = JNum received ∧ JNum 5000 = JNum sent
    ∧ JNum 700 = JNum (received - sent).
Proof.
  apply (closed_history_balances "me"
           [tx_X; paying (Some "W") (Some 101) "me" (JNum 700);
            {| tx_hash := Some "Y"; tx_blockNumber := Some 102;
               tx_inputs := Some [mkInput (Some (mkCoin "me" (JNum 5000)))
                                          (Some (mkPrevout "X" 0))];
               tx_outputs := Some [mkOutput "you" (JNum 4000)] |}]
           {| bal_incoming := JNum 5700; bal_outgoing := JNum 5000;
              bal_incomingPending := JNum 0; bal_outgoingPending := JNum 0;
              availableBalance := JNum 700;
              unspentUTXOs := [mkUnspent "W:0" (JNum 700) true] |}).
  - vm_compute. reflexivity.
  - repeat constructor.
  - vm_compute. repeat constructor; intros H; repeat (apply elem_of_cons in H as [H|H]; [discriminate H|]); by apply elem_of_nil in H.
  - vm_compute. repeat constructor. intros H. by apply elem_of_nil in H.
  - intros k v Hin. vm_compute in Hin.
    apply list_elem_of_singleton in Hin. injection Hin as -> ->.
    exists tx_X, 0%nat, (mkOutput "me" (JNum 5000)).
    split_and!; try reflexivity. left.
  - vm_compute. repeat constructor; eexists; reflexivity.
Defined.

(** ** The entries behind the available balance and the spent flag *)

Lemma isConfirmed_blockNumber tx :
  isConfirmed tx = true ↔ ∃ n, tx_blockNumber tx = Some n.
Proof.
  unfold isConfirmed. destruct (tx_blockNumber tx) as [n|]; split.
  - eauto.
  - done.
  - done.
  - intros [? ?]. done.
Qed.

(** An entry that counts towards the available balance is the entry of an
    output that pays the address, in a record with a block number, and that
    no input of the history consumes. *)
Lemma spendable_entry_origin address txs t k e :
  classify address txs = Ok t → (k, e) ∈ utxos t → spendable e →
  ∃ tx i o n,
    tx ∈ txs ∧ tx_blockNumber tx = Some n
    ∧ outputsOf tx !! i = Some o ∧ output_address o = address
    ∧ k = utxoKey (hashString tx) i ∧ utxo_value e = output_value o
    ∧ ¬ consumes address txs (hashString tx) i.
Proof.
  intros Ht Hin [Hs Hc].
  pose proof (utxos_spent_mark _ _ _ _ _ Ht Hin) as Hmark.
  destruct (utxos_from_writes _ _ _ _ _ Ht Hin)
    as (tx & i & o & Htx & Ho & Ha & [= -> ->]).
  simpl in Hc, Hs. apply isConfirmed_blockNumber in Hc as [n Hn].
  exists tx, i, o, n. split_and!; try done.
  rewrite <-spentSet_consumes. by apply bool_decide_eq_false in Hs.
Qed.

(** C2.  The available balance of a snapshot is the sum of [value] over
    exactly the entries of the UTXO map with [spent = false] and
    [confirmed = true], and is the same as over the map without the other
    entries.  Every entry in that sum holds the value of an output that pays
    the address in a record with a block number and that no input of the
    history consumes; the entry of a consumed output is never in the sum, and
    neither is the entry of an output of a pending record, in a history where
    records with the same hash are the same record. *)
Theorem availableBalance_spendable_sum address txs b :
  analyzeUTXOs address txs = Ok b →
  ∃ t, classify address txs = Ok t
    ∧ availableBalance b = js_sum (utxo_value <$> filter spendable (utxos t).*2)
    ∧ availableBalance b
      = availableOf (filter (λ '(key, utxo), spendable utxo) (utxos t))
    ∧ (∀ k e, (k, e) ∈ utxos t → spendable e →
         ∃ tx i o n,
           tx ∈ txs ∧ tx_blockNumber tx = Some n
           ∧ outputsOf tx !! i = Some o ∧ output_address o = address
           ∧ k = utxoKey (hashString tx) i ∧ utxo_value e = output_value o
           ∧ ¬ consumes address txs (hashString tx) i)
    ∧ (∀ hash index e,
         consumes address txs hash index →
         (utxoKey hash index, e) ∈ utxos t → ¬ spendable e)
    ∧ (sameHashSameRecord txs →
       ∀ tx i o e,
         tx ∈ txs → tx_blockNumber tx = None →
         outputsOf tx !! i = Some o → output_address o = address →
         (utxoKey (hashString tx) i, e) ∈ utxos t → ¬ spendable e).
Proof.
  intros H. apply analyzeUTXOs_Ok in H as (t & Ht & ->). simpl.
  exists t. split_and!; [done|apply availableOf_sum| | | |].
  - rewrite !availableOf_sum. do 2 f_equal.
    induction (utxos t) as [|[k e] m IH]; [done|].
    rewrite fmap_cons. simpl.
    rewrite (filter_cons _ e), (filter_cons _ (k, e)). simpl.
    destruct (decide (spendable e)); [|done].
    rewrite fmap_cons. simpl.
    rewrite filter_cons, decide_True by done. by rewrite IH.
  - intros k e Hin Hsp. by eapply spendable_entry_origin.
  - intros hash index e Hcons Hin Hsp.
    destruct (spendable_entry_origin _ _ _ _ _ Ht Hin Hsp)
      as (tx & i & o & n & _ & _ & _ & _ & Hk & _ & Hnot).
    apply utxoKey_inj in Hk as [-> ->]. by apply Hnot.
  - intros Hsame tx i o e Htx Hpending Ho Ha Hin Hsp.
    destruct (spendable_entry_origin _ _ _ _ _ Ht Hin Hsp)
      as (tx' & i' & o' & n & Htx' & Hn & _ & _ & Hk & _).
    apply utxoKey_inj in Hk as [Hh _].
    apply Hsame in Hh; [|done..]. subst tx'. congruence.
Qed.

(** Three records: X pays 5000, W pays 700, Y consumes the output of X while
    still pending.  The balance is the 700 of W. *)
Lemma availableBalance_spendable_sum_witness :
  ∃ t, classify "me" [tx_X; tx_Y; tx_W] = Ok t
    ∧ JNum 700 = js_sum (utxo_value <$> filter spendable (utxos t).*2)
    ∧ (∀ e, ("X:0", e) ∈ utxos t → ¬ spendable e).
Proof.
  destruct (availableBalance_spendable_sum "me" [tx_X; tx_Y; tx_W]
              {| bal_incoming := JNum 5700; bal_outgoing := JNum 0;
                 bal_incomingPending := JNum 0; bal_outgoingPending := JNum 5000;
                 availableBalance := JNum 700;
                 unspentUTXOs := [mkUnspent "W:0" (JNum 700) true] |})
    as (t & Ht & Hsum & _ & _ & Hspent & _).
  - vm_compute. reflexivity.
  - exists t. split; [exact Ht|]. split; [exact Hsum|].
    intros e. apply (Hspent "X" 0%nat e).
    exists tx_Y, (mkInput (Some (mkCoin "me" (JNum 5000))) (Some (mkPrevout "X" 0))),
      (mkCoin "me" (JNum 5000)).
    split_and!; try reflexivity.
    + apply elem_of_cons. right. apply elem_of_cons. left. reflexivity.
    + apply list_elem_of_singleton. reflexivity.
Defined.

(** The entry of an output that pays the address exists, and its spent flag
    says whether the output is consumed. *)
Lemma paid_entry_spent address txs t tx i o :
  classify address txs = Ok t →
  tx ∈ txs → outputsOf tx !! i = Some o → output_address o = address →
  ∃ entry,
    map_get (utxoKey (hashString tx) i) (utxos t) = Some entry
    ∧ (utxo_spent entry = true ↔ consumes address txs (hashString tx) i).
Proof.
  intros Ht Htx Ho Ha.
  destruct (utxos_has_paid _ _ _ _ _ _ Ht Htx Ho Ha) as [e He].
  exists e. split.
  - apply map_get_elem_of; [by eapply utxo_keys_NoDup|done].
  - rewrite (utxos_spent_mark _ _ _ _ _ Ht He), bool_decide_eq_true.
    apply spentSet_consumes.
Qed.

(** C3.  Every output of the history that pays the tracked address has its
    entry under the key of its output reference, and the entry has
    [spent = true] exactly when some transaction of the history has an input
    with a coin of the tracked address whose [prevout] is that output.  The
    same holds of any entry found under a key [hash:index].  Every
    permutation of the history reconstructs as well, with an entry for the
    same outputs and the same spent flag, in whatever order the creating and
    the spending transaction are listed. *)
Theorem spent_iff_consumed address txs t :
  classify address txs = Ok t →
  (∀ tx i o,
     tx ∈ txs → outputsOf tx !! i = Some o → output_address o = address →
     ∃ entry,
       map_get (utxoKey (hashString tx) i) (utxos t) = Some entry
       ∧ (utxo_spent entry = true ↔ consumes address txs (hashString tx) i))
  ∧ (∀ hash index entry,
       map_get (utxoKey hash index) (utxos t) = Some entry →
       (utxo_spent entry = true ↔ consumes address txs hash index)
       ∧ ∀ txs' t' entry',
           txs' ≡ₚ txs →
           classify address txs' = Ok t' →
           map_get (utxoKey hash index) (utxos t') = Some entry' →
           utxo_spent entry' = utxo_spent entry)
  ∧ (∀ txs', txs' ≡ₚ txs →
       ∃ t', classify address txs' = Ok t'
         ∧ ∀ tx i o,
             tx ∈ txs → outputsOf tx !! i = Some o → output_address o = address →
             ∃ entry entry',
               map_get (utxoKey (hashString tx) i) (utxos t) = Some entry
               ∧ map_get (utxoKey (hashString tx) i) (utxos t') = Some entry'
               ∧ utxo_spent entry' = utxo_spent entry
               ∧ (utxo_spent entry' = true
                  ↔ consumes address txs (hashString tx) i)).
Proof.
  intros Ht.
  assert (∀ hash index l u en, classify address l = Ok u →
            map_get (utxoKey hash index) (utxos u) = Some en →
            utxo_spent en = true ↔ consumes address l hash index) as Hiff.
  { intros hash index l u en Hu Hen. apply map_get_Some in Hen.
    rewrite (utxos_spent_mark _ _ _ _ _ Hu Hen), bool_decide_eq_true.
    apply spentSet_consumes. }
  assert (∀ (x y : bool) (P : Prop), (x = true ↔ P) → (y = true ↔ P) → y = x)
    as Hbool.
  { intros [] [] P H1 H2; try done.
    - apply H2, H1. done.
    - symmetry. apply H1, H2. done. }
  split_and!.
  - intros tx i o Htx Ho Ha. by eapply paid_entry_spent.
  - intros hash index entry Hget. split; [by eapply Hiff|].
    intros txs' t' entry' Hp Ht' Hget'.
    pose proof (Hiff _ _ _ _ _ Ht Hget) as H1.
    pose proof (Hiff _ _ _ _ _ Ht' Hget') as H2.
    rewrite (consumes_perm _ _ _ _ _ Hp) in H2.
    by eapply Hbool.
  - intros txs' Hp.
    destruct (classify_perm_Ok _ _ _ _ Hp Ht) as [t' Ht'].
    exists t'. split; [done|]. intros tx i o Htx Ho Ha.
    destruct (paid_entry_spent _ _ _ _ _ _ Ht Htx Ho Ha) as (entry & Hget & H1).
    assert (tx ∈ txs') as Htx' by (by rewrite Hp).
    destruct (paid_entry_spent _ _ _ _ _ _ Ht' Htx' Ho Ha) as (entry' & Hget' & H2).
    rewrite (consumes_perm _ _ _ _ _ Hp) in H2.
    exists entry, entry'. split_and!; try done. by eapply Hbool.
Qed.

(** Scenario C, in both orders of the creating transaction X and the
    spending transaction Y: the entry of (X,0) exists and is spent. *)
Lemma spent_iff_consumed_witness :
  (∃ entry, map_get "X:0" [("X:0", mkUtxoEntry (JNum 5000) true true)] = Some entry
            ∧ utxo_spent entry = true)
  ∧ ∃ t' entry', classify "me" [tx_Y; tx_X] = Ok t'
      ∧ map_get "X:0" (utxos t') = Some entry'
      ∧ utxo_spent entry' = true.
Proof.
  destruct (spent_iff_consumed "me" [tx_X; tx_Y]
              {| utxos := [("X:0", mkUtxoEntry (JNum 5000) true true)];
                 incoming := JNum 5000; outgoing := JNum 0;
                 incomingPending := JNum 0; outgoingPending := JNum 5000 |})
    as (Hpaid & _ & Hperm).
  - vm_compute. reflexivity.
  - assert (consumes "me" [tx_X; tx_Y] "X" 0) as Hcons.
    { exists tx_Y,
        (mkInput (Some (mkCoin "me" (JNum 5000))) (Some (mkPrevout "X" 0))),
        (mkCoin "me" (JNum 5000)).
      split_and!; try reflexivity.
      - apply elem_of_cons. right. apply list_elem_of_singleton. reflexivity.
      - apply list_elem_of_singleton. reflexivity. }
    split.
    + destruct (Hpaid tx_X 0%nat (mkOutput "me" (JNum 5000)))
        as (entry & Hget & Hiff); [left|reflexivity|reflexivity|].
      exists entry. split; [exact Hget|]. apply Hiff. exact Hcons.
    + destruct (Hperm [tx_Y; tx_X]) as (t' & Ht' & Hall); [apply perm_swap|].
      destruct (Hall tx_X 0%nat (mkOutput "me" (JNum 5000)))
        as (entry & entry' & _ & Hget' & _ & Hiff); [left|reflexivity|reflexivity|].
      exists t', entry'. split; [exact Ht'|]. split; [exact Hget'|].
      apply Hiff. exact Hcons.
Defined.
